(** * Resource governor, session registry and session persistence

    A shallow embedding of three classes of the automation server:

    - [ResourceManager] (src/utils/resourceManager.ts): admission control
      with a priority queue, per-request timers and per-user counters;
    - [SessionPersistence] (src/utils/sessionPersistence.ts): one JSON file
      per session under a persistence directory;
    - [SessionManager] (src/sessionManager.ts): the registry of live
      browser sessions, with creation, lookup, close and recovery.

    Every JavaScript number that the modelled code handles is a counter, a
    size, a priority or a millisecond time stamp; they are integers here
    ([Z]).  Fractional, NaN and infinite numbers are outside the model.

    An [async] method runs without interruption up to its first [await].
    The three admission methods of [ResourceManager] contain no [await]
    before their last statement, and promise callbacks never run inside
    the method that settles the promise, so each of them is one atomic
    state transformer.  Timer callbacks are separate events. *)

From stdpp Require Import gmap strings list fin_maps pretty sorting.
From Stdlib Require Import ZArith Lia Sorted.

Local Open Scope Z_scope.

(* ===================================================================== *)
(** * JavaScript helpers *)
(* ===================================================================== *)

(** [x && ...] / [x || d] on an optional string: [undefined] and the empty
    string are both falsy. *)
Definition truthy (x : option string) : option string :=
  match x with
  | Some s => if decide (s = "") then None else Some s
  | None => None
  end.

Section js_sort.
Context {A : Type}.
(** The comparator of [Array.prototype.sort]: negative when the first
    argument sorts first. *)
Variable cmp : A → A → Z.

(** Insert [x] in front of the first element it does not sort after. *)
Fixpoint sort_insert (x : A) (l : list A) : list A :=
  match l with
  | [] => [x]
  | y :: l' => if cmp x y <=? 0 then x :: y :: l' else y :: sort_insert x l'
  end.

(** [Array.prototype.sort] is a stable sort (ECMAScript 2019); for a
    consistent comparator every stable sort returns the same array, the
    one computed here by insertion from the right. *)
Fixpoint js_sort (l : list A) : list A :=
  match l with
  | [] => []
  | x :: l' => sort_insert x (js_sort l')
  end.
End js_sort.

(* ===================================================================== *)
(** * ResourceManager *)
(* ===================================================================== *)

Module ResourceManager.

Record ResourceConfig := mkResourceConfig {
  maxConcurrentBrowsers : Z;
  maxSessionsPerUser : Z;
  maxTotalSessions : Z;
  sessionIdleTimeout : Z;
  queueTimeout : Z;
  maxQueueSize : Z;
  memoryLimitMB : option Z;
  enableAutoCleanup : bool;
  cleanupInterval : Z;
}.

(** The defaults of the constructor. *)
Definition defaultConfig : ResourceConfig :=
  {| maxConcurrentBrowsers := 5;
     maxSessionsPerUser := 3;
     maxTotalSessions := 10;
     sessionIdleTimeout := 3600000;
     queueTimeout := 300000;
     maxQueueSize := 50;
     memoryLimitMB := None;
     enableAutoCleanup := true;
     cleanupInterval := 300000 |}.

Inductive OperationType := browser_launch | session_create.

(** What the two callbacks of a queued promise can be called with. *)
Inductive Outcome :=
  | Granted            (* resolve(undefined) *)
  | UserLimitReached   (* reject: SESSION_LIMIT_REACHED, from processQueue *)
  | QueueCleared       (* reject: 'Queue cleared', from clearQueue *)
  | TimedOut.          (* reject: TIMEOUT, from the timer callback *)

Global Instance Outcome_eq_dec : EqDecision Outcome.
Proof. solve_decision. Defined.

(** [QueuedOperation].  [id] is the counter value [n] of the identifier
    string [op-n] (see [operationIdString]); [createdAt] is the time stamp
    in milliseconds.  The fields [resolve], [reject] and [timeout] are
    handles into the runtime: the calls made on the first two are recorded
    in the [settled] log of the state, the pending timers in [timers]. *)
Record QueuedOperation := mkOp {
  id : N;
  type : OperationType;
  userId : option string;
  priority : Z;
  createdAt : Z;
}.

Definition operationIdString (n : N) : string := "op-" +:+ pretty n.

Record State := mkState {
  config : ResourceConfig;
  activeBrowsers : Z;
  activeSessions : Z;
  sessionsByUser : gmap string Z;
  queue : list QueuedOperation;
  nextOperationId : N;
  processing : bool;
  (** identifiers whose [setTimeout] timer is armed and not yet cleared *)
  timers : gset N;
  (** every call of a queued promise's [resolve] or [reject], newest first *)
  settled : list (N * Outcome);
}.

Definition set_activeBrowsers (v : Z) (s : State) : State :=
  mkState (config s) v (activeSessions s) (sessionsByUser s) (queue s)
          (nextOperationId s) (processing s) (timers s) (settled s).
Definition set_sessionsByUser (v : gmap string Z) (s : State) : State :=
  mkState (config s) (activeBrowsers s) (activeSessions s) v (queue s)
          (nextOperationId s) (processing s) (timers s) (settled s).
Definition set_queue (v : list QueuedOperation) (s : State) : State :=
  mkState (config s) (activeBrowsers s) (activeSessions s) (sessionsByUser s) v
          (nextOperationId s) (processing s) (timers s) (settled s).
Definition set_nextOperationId (v : N) (s : State) : State :=
  mkState (config s) (activeBrowsers s) (activeSessions s) (sessionsByUser s)
          (queue s) v (processing s) (timers s) (settled s).
Definition set_processing (v : bool) (s : State) : State :=
  mkState (config s) (activeBrowsers s) (activeSessions s) (sessionsByUser s)
          (queue s) (nextOperationId s) v (timers s) (settled s).
Definition set_timers (v : gset N) (s : State) : State :=
  mkState (config s) (activeBrowsers s) (activeSessions s) (sessionsByUser s)
          (queue s) (nextOperationId s) (processing s) v (settled s).
Definition set_settled (v : list (N * Outcome)) (s : State) : State :=
  mkState (config s) (activeBrowsers s) (activeSessions s) (sessionsByUser s)
          (queue s) (nextOperationId s) (processing s) (timers s) v.

(** [new ResourceManager(cfg)] *)
Definition init (cfg : ResourceConfig) : State :=
  {| config := cfg;
     activeBrowsers := 0;
     activeSessions := 0;
     sessionsByUser := ∅;
     queue := [];
     nextOperationId := 1%N;
     processing := false;
     timers := ∅;
     settled := [] |}.

(** Runtime primitives. *)
Definition setTimeout (i : N) (s : State) : State :=
  set_timers ({[ i ]} ∪ timers s) s.
Definition clearTimeout (i : N) (s : State) : State :=
  set_timers (timers s ∖ {[ i ]}) s.
(** [operation.resolve(..)] / [operation.reject(..)] *)
Definition settle (i : N) (o : Outcome) (s : State) : State :=
  set_settled ((i, o) :: settled s) s.

(** [this.sessionsByUser.get(u) || 0] *)
Definition userSessions (u : string) (s : State) : Z :=
  default 0 (sessionsByUser s !! u).

(** The grant shared by [requestBrowserLaunch] and [processQueue]:
    [activeBrowsers++] and, for a truthy user, the per-user increment. *)
Definition grant (u : option string) (s : State) : State :=
  let s := set_activeBrowsers (activeBrowsers s + 1) s in
  match truthy u with
  | Some u => set_sessionsByUser (<[u := userSessions u s + 1]> (sessionsByUser s)) s
  | None => s
  end.

(** The comparator passed to [queue.sort] in [enqueue]. *)
Definition compareOperations (a b : QueuedOperation) : Z :=
  if decide (priority a ≠ priority b) then priority b - priority a
  else createdAt a - createdAt b.

(** [enqueue]: the promise stays pending; the model returns the identifier
    under which its outcome will be logged. *)
Definition enqueue (ty : OperationType) (u : option string) (prio : Z) (now : Z)
    (s : State) : N * State :=
  let i := nextOperationId s in
  let s := set_nextOperationId (i + 1)%N s in
  let s := setTimeout i s in
  let operation := mkOp i ty u prio now in
  let s := set_queue (queue s ++ [operation]) s in
  let s := set_queue (js_sort compareOperations (queue s)) s in
  (i, s).

Inductive LaunchError :=
  | CONCURRENT_LIMIT_REACHED  (* 'Queue is full (..)' *)
  | SESSION_LIMIT_REACHED.    (* 'User .. has reached the session limit' *)

Inductive LaunchResult :=
  | Launched                  (* the promise is resolved on return *)
  | Threw (e : LaunchError)   (* the promise is rejected on return *)
  | Queued (i : N).           (* the promise of [enqueue], still pending *)

(** [requestBrowserLaunch(userId?, priority = 0)]; [now] is what
    [new Date()] returns inside [enqueue]. *)
Definition requestBrowserLaunch (u : option string) (prio : option Z) (now : Z)
    (s : State) : LaunchResult * State :=
  let prio := default 0 prio in
  if maxConcurrentBrowsers (config s) <=? activeBrowsers s then
    if maxQueueSize (config s) <=? Z.of_nat (length (queue s)) then
      (Threw CONCURRENT_LIMIT_REACHED, s)
    else
      let '(i, s') := enqueue browser_launch u prio now s in (Queued i, s')
  else
    let atLimit :=
      match truthy u with
      | Some u =>
          (* [get(userId)! >= max]: [undefined >= max] is false *)
          match sessionsByUser s !! u with
          | Some c => maxSessionsPerUser (config s) <=? c
          | None => false
          end
      | None => false
      end in
    if atLimit then (Threw SESSION_LIMIT_REACHED, s)
    else (Launched, grant u s).

(** The [while] loop of [processQueue].  Each iteration shifts one element
    off the queue, so the loop is structural in the queue it starts from;
    [q] is always [queue s]. *)
Fixpoint processQueue_loop (q : list QueuedOperation) (s : State) : State :=
  match q with
  | [] => s
  | operation :: rest =>
      if activeBrowsers s <? maxConcurrentBrowsers (config s) then
        let s := set_queue rest s in
        let s := clearTimeout (id operation) s in
        let limited :=
          match truthy (userId operation) with
          | Some u => maxSessionsPerUser (config s) <=? userSessions u s
          | None => false
          end in
        if limited then
          processQueue_loop rest (settle (id operation) UserLimitReached s)
        else
          processQueue_loop rest
            (settle (id operation) Granted (grant (userId operation) s))
      else s
  end.

Definition processQueue (s : State) : State :=
  if processing s || bool_decide (queue s = []) then s
  else
    let s := set_processing true s in
    let s := processQueue_loop (queue s) s in
    set_processing false s.

(** [releaseBrowser(userId?)] *)
Definition releaseBrowser (u : option string) (s : State) : State :=
  let s := set_activeBrowsers (Z.max 0 (activeBrowsers s - 1)) s in
  let s :=
    match truthy u with
    | Some u =>
        let count := userSessions u s in
        if 1 <? count
        then set_sessionsByUser (<[u := count - 1]> (sessionsByUser s)) s
        else set_sessionsByUser (delete u (sessionsByUser s)) s
    | None => s
    end in
  processQueue s.

(** [queue.splice(index, 1)] at the first index whose id matches. *)
Fixpoint spliceFirst (i : N) (q : list QueuedOperation) : list QueuedOperation :=
  match q with
  | [] => []
  | op :: q' => if decide (id op = i) then q' else op :: spliceFirst i q'
  end.

Definition queueIds (s : State) : list N := id <$> queue s.

(** [removeFromQueue(operationId)] *)
Definition removeFromQueue (i : N) (s : State) : State :=
  if decide (i ∈ queueIds s)
  then clearTimeout i (set_queue (spliceFirst i (queue s)) s)
  else s.

(** The callback armed by [enqueue] for operation [i]. *)
Definition timeoutCallback (i : N) (s : State) : State :=
  settle i TimedOut (removeFromQueue i s).

(** [clearQueue()] *)
Definition clearQueue (s : State) : nat * State :=
  let count := length (queue s) in
  let s := foldl (λ s op, settle (id op) QueueCleared (clearTimeout (id op) s))
                 s (queue s) in
  (count, set_queue [] s).

(** ** The governor as a transition system *)

Inductive Event :=
  | RequestLaunch (u : option string) (prio : option Z) (now : Z)
  | Release (u : option string)
  | TimerFires (i : N)
  | ClearQueue.

(** A timer fires only while it is armed, and is spent afterwards. *)
Definition step (s : State) (e : Event) : State :=
  match e with
  | RequestLaunch u prio now => (requestBrowserLaunch u prio now s).2
  | Release u => releaseBrowser u s
  | TimerFires i =>
      if decide (i ∈ timers s)
      then timeoutCallback i (set_timers (timers s ∖ {[ i ]}) s)
      else s
  | ClearQueue => (clearQueue s).2
  end.

Definition run (evs : list Event) (s : State) : State := foldl step s evs.

(** The outcomes delivered so far to operation [i], newest first. *)
Definition outcomesOf (i : N) (s : State) : list Outcome :=
  (filter (λ p, p.1 = i) (settled s)).*2.

(** ** Service order *)

(** [servedBefore a b]: [a] leaves the queue before [b] does. Higher
    priority first; among equal priorities the earlier [createdAt] first;
    among equal time stamps the one enqueued first. *)
Definition servedBefore (a b : QueuedOperation) : Prop :=
  priority b < priority a ∨
  (priority a = priority b ∧
   (createdAt a < createdAt b ∨
    (createdAt a = createdAt b ∧ (id a < id b)%N))).

(** What a stable sort needs of its input to produce [servedBefore]: an
    operation that ties with a later one was enqueued before it. *)
Definition tieOrder (a b : QueuedOperation) : Prop :=
  priority a = priority b → createdAt a = createdAt b → (id a < id b)%N.

(** The per-user test of [processQueue], as a function of the two fields
    it reads. *)
Definition limited (cfg : ResourceConfig) (users : gmap string Z)
    (op : QueuedOperation) : bool :=
  match truthy (userId op) with
  | Some u => maxSessionsPerUser cfg <=? default 0 (users !! u)
  | None => false
  end.

(** One iteration of the loop of [processQueue], entered with
    [queue s = operation :: rest] and spare capacity. *)
Definition processOne (operation : QueuedOperation) (rest : list QueuedOperation)
    (s : State) : State :=
  let s := clearTimeout (id operation) (set_queue rest s) in
  if limited (config s) (sessionsByUser s) operation
  then settle (id operation) UserLimitReached s
  else settle (id operation) Granted (grant (userId operation) s).

(** The operations of [q] that the log [l] records as granted. *)
Definition grantedAmong (q : list QueuedOperation) (l : list (N * Outcome))
    : list QueuedOperation :=
  filter (λ op, (id op, Granted) ∈ l) q.

End ResourceManager.


(* ===================================================================== *)
(** * ResourceManager: invariants and service order, stated *)
(* ===================================================================== *)

Module ResourceManagerSpec.
Import ResourceManager.

(** The outcomes that a log records for operation [i], newest first. *)
Definition outcomesIn (i : N) (log : list (N * Outcome)) : list Outcome :=
  (filter (λ p, p.1 = i) log).*2.

(** ** The ledger: queue, timers and outcome log agree *)

Record Ledger (cfg : ResourceConfig) (q : list QueuedOperation) (next : N)
    (tm : gset N) (log : list (N * Outcome)) : Prop := mkLedger {
  ledger_length : Z.of_nat (length q) ≤ Z.max 0 (maxQueueSize cfg);
  ledger_sorted : StronglySorted servedBefore q;
  ledger_nodup : NoDup (id <$> q);
  ledger_bound : ∀ i, i ∈ id <$> q → (1 ≤ i < next)%N;
  ledger_next : (1 ≤ next)%N;
  ledger_timers : ∀ i, i ∈ tm ↔ i ∈ id <$> q;
  ledger_log : Forall (λ p, (p.1 < next)%N) log;
  ledger_once : ∀ i, (1 ≤ i < next)%N →
    (i ∈ id <$> q ∧ outcomesIn i log = []) ∨
    ((i ∉ (id <$> q)) ∧ ∃ o, outcomesIn i log = [o]);
}.

(** ** The counters stay within their limits *)

Record Counters (cfg : ResourceConfig) (active : Z) (users : gmap string Z)
    : Prop := mkCounters {
  counters_active : 0 ≤ active ≤ Z.max 0 (maxConcurrentBrowsers cfg);
  counters_users : ∀ u c, users !! u = Some c →
    1 ≤ c ≤ Z.max 1 (maxSessionsPerUser cfg);
}.

Definition ledger (s : State) : Prop :=
  Ledger (config s) (queue s) (nextOperationId s) (timers s) (settled s).
Definition counters (s : State) : Prop :=
  Counters (config s) (activeBrowsers s) (sessionsByUser s).

(** The invariant of the states between two events. *)
Record Inv (s : State) : Prop := mkInv {
  inv_ledger : ledger s;
  inv_counters : counters s;
  inv_idle : processing s = false;
  inv_saturated :
    queue s ≠ [] → maxConcurrentBrowsers (config s) ≤ activeBrowsers s;
}.

(** The counter updates of [releaseBrowser], before [processQueue]. *)
Definition releaseCounters (u : option string) (s : State) : State :=
  let s := set_activeBrowsers (Z.max 0 (activeBrowsers s - 1)) s in
  match truthy u with
  | Some u =>
      let count := userSessions u s in
      if 1 <? count
      then set_sessionsByUser (<[u := count - 1]> (sessionsByUser s)) s
      else set_sessionsByUser (delete u (sessionsByUser s)) s
  | None => s
  end.

(** What [clearQueue] does to one queued operation. *)
Definition clearOne (s : State) (op : QueuedOperation) : State :=
  settle (id op) QueueCleared (clearTimeout (id op) s).

(** Split a queue at its first operation that passes the per-user test:
    the rejected prefix, then that operation and what follows it. *)
Fixpoint firstEligible (cfg : ResourceConfig) (users : gmap string Z)
    (q : list QueuedOperation)
    : list QueuedOperation * option (QueuedOperation * list QueuedOperation) :=
  match q with
  | [] => ([], None)
  | op :: rest =>
      if limited cfg users op
      then let '(pre, r) := firstEligible cfg users rest in (op :: pre, r)
      else ([], Some (op, rest))
  end.

(** The log entries of the operations that [processQueue] rejects. *)
Definition rejections (pre : list QueuedOperation) : list (N * Outcome) :=
  reverse ((λ o, (id o, UserLimitReached)) <$> pre).

(** The time stamps that the [requestBrowserLaunch] calls of a run read
    from the clock, in order. *)
Definition requestTimes (evs : list Event) : list Z :=
  omap (λ e, match e with RequestLaunch _ _ now => Some now | _ => None end) evs.

(** Waiting operations carry time stamps of the run, and an operation that
    was enqueued earlier carries the earlier (or the same) time stamp. *)
Definition stampedInOrder (times : list Z) (q : list QueuedOperation) : Prop :=
  (∀ op, op ∈ q → createdAt op ∈ times) ∧
  (∀ a b, a ∈ q → b ∈ q → (id a < id b)%N → createdAt a ≤ createdAt b).

(** ** Configurations and runs for the examples *)

(** One browser at a time, nobody may wait. *)
Definition cfgNoQueue : ResourceConfig :=
  mkResourceConfig 1 3 10 3600000 300000 0 None false 300000.

(** One browser at a time, up to fifty may wait. *)
Definition cfgSingle : ResourceConfig :=
  mkResourceConfig 1 3 10 3600000 300000 50 None false 300000.

(** A first request takes the browser; three more wait: user b at
    priority 0, then users c and d at priority 5 in the same millisecond. *)
Definition evsWaiting : list Event :=
  [ RequestLaunch None None 0;
    RequestLaunch (Some "b") (Some 0) 1;
    RequestLaunch (Some "c") (Some 5) 2;
    RequestLaunch (Some "d") (Some 5) 2 ].

(** Five browsers, no session for any identified user. *)
Definition cfgNoUserSessions : ResourceConfig :=
  mkResourceConfig 5 0 10 3600000 300000 50 None false 300000.

End ResourceManagerSpec.

(* ===================================================================== *)
(** * ResourceManager: the reporting methods *)
(* ===================================================================== *)

Module ResourceManagerReports.
Import ResourceManager.

(** One element of the array that [getQueueStatus] returns. *)
Record QueueStatus := mkQueueStatus {
  statusId : string;
  statusType : OperationType;
  statusUserId : option string;
  statusPriority : Z;
  waitTimeMs : Z;
}.

(** [getQueueStatus()]; [now] is the value of [Date.now()]. *)
Definition getQueueStatus (now : Z) (s : State) : list QueueStatus :=
  (λ op, mkQueueStatus (operationIdString (id op)) (type op) (userId op)
                       (priority op) (now - createdAt op)) <$> queue s.

(** [ResourceUsage] *)
Record ResourceUsage := mkResourceUsage {
  usageActiveBrowsers : Z;
  usageActiveSessions : Z;
  queuedRequests : nat;
  memoryUsageMB : Z;
  cpuUsagePercent : Z;
}.

(** [getResourceUsage()]; [heapMB] is the rounded heap size that the
    runtime reports. *)
Definition getResourceUsage (heapMB : Z) (s : State) : ResourceUsage :=
  {| usageActiveBrowsers := activeBrowsers s;
     usageActiveSessions := activeSessions s;
     queuedRequests := length (queue s);
     memoryUsageMB := heapMB;
     cpuUsagePercent := 0 |}.

(** [isMemoryLimitExceeded()]: a limit of 0 or no limit is never exceeded. *)
Definition isMemoryLimitExceeded (heapMB : Z) (s : State) : bool :=
  match memoryLimitMB (config s) with
  | Some limit =>
      if decide (limit = 0) then false
      else limit <? memoryUsageMB (getResourceUsage heapMB s)
  | None => false
  end.

(** The order in which [getQueueStatus] lists two entries: the higher
    priority first, and of two equal priorities the longer wait first. *)
Definition listedBefore (a b : QueueStatus) : Prop :=
  statusPriority b < statusPriority a ∨
  (statusPriority a = statusPriority b ∧ waitTimeMs b ≤ waitTimeMs a).

End ResourceManagerReports.

(* ===================================================================== *)
(** * Values shared by the session modules *)
(* ===================================================================== *)

(** What a [throw] carries. *)
Inductive JsError :=
  | ErrnoException (code : string)   (* a file-system error, with its [.code] *)
  | SyntaxError                      (* thrown by [JSON.parse] *)
  | Error (message : string).        (* [new Error(message)] and engine errors *)

(** A call returns a value ([inr]) or throws ([inl]). *)
Definition Result (A : Type) : Type := JsError + A.

(** Values of type [any] that are data. *)
#[local] Unset Elimination Schemes.
Inductive JsValue :=
  | JsNull
  | JsBool (b : bool)
  | JsNumber (n : Z)
  | JsString (s : string)
  | JsArray (items : list JsValue)
  | JsObject (fields : list (string * JsValue)).
#[local] Set Elimination Schemes.

Record Viewport := mkViewport { width : Z; height : Z }.

Record Geolocation := mkGeolocation {
  latitude : Z;
  longitude : Z;
  accuracy : option Z;
}.

(** [BrowserSettings] (sessionManager.ts): every field is optional. *)
Record BrowserSettings := mkBrowserSettings {
  settingsBrowserType : option string;
  headless : option bool;
  settingsViewport : option Viewport;
  userAgent : option string;
  locale : option string;
  timezoneId : option string;
  geolocation : option Geolocation;
  permissions : option (list string);
}.

(** The object literal [{}]. *)
Definition noSettings : BrowserSettings :=
  mkBrowserSettings None None None None None None None None.

(** [PersistedSessionData] (sessionPersistence.ts) *)
Record PersistedSessionData := mkPersisted {
  persistedId : string;
  persistedBrowserType : string;
  persistedSettings : BrowserSettings;
  pageUrl : string;
  cookies : list JsValue;
  localStorage : gmap string string;
  sessionStorage : gmap string string;
  persistedViewport : Viewport;
  persistedCreatedAt : string;
  persistedLastAccessedAt : string;
  metadata : option (gmap string JsValue);
}.

(** The functions of the JavaScript runtime that the modelled code calls
    and that are not part of the repository. *)
Class Platform := {
  (** [JSON.stringify(data, null, 2)] *)
  JSON_stringify : PersistedSessionData → string;
  (** [JSON.parse(text)]; [None] when it throws a [SyntaxError] *)
  JSON_parse : string → option PersistedSessionData;
  (** [path.join(dir, file)] *)
  path_join : string → string → string;
  (** the name under which [fs.readdir(dir)] lists the file at a path, if
      the file lies directly in [dir] *)
  path_entry : string → string → option string;
  (** [new Date(ms).toISOString()] *)
  toISOString : Z → string;
}.

(** ** String methods *)

(** [s.endsWith(suffix)] *)
Definition endsWith (suffix s : string) : bool :=
  let n := String.length s in
  let m := String.length suffix in
  (m <=? n)%nat && bool_decide (String.substring (n - m) m s = suffix).

(** [s.replace(pattern, replacement)] with a string pattern: only the
    first occurrence is replaced. *)
Definition replaceFirst (pattern replacement s : string) : string :=
  match String.index 0 pattern s with
  | Some i =>
      String.substring 0 i s +:+ replacement +:+
      String.substring (i + String.length pattern)
                (String.length s - (i + String.length pattern)) s
  | None => s
  end.

(* ===================================================================== *)
(** * The file system *)
(* ===================================================================== *)

(** Files by path, and the paths the process has no permission for. *)
Record FileSystem := mkFileSystem {
  files : gmap string string;
  denied : gset string;
}.

Definition ENOENT : JsError := ErrnoException "ENOENT".
Definition EACCES : JsError := ErrnoException "EACCES".

Definition errorCode (e : JsError) : option string :=
  match e with
  | ErrnoException code => Some code
  | _ => None
  end.

Section fs.
Context `{Platform}.

(** [fs.mkdir(dir, { recursive: true })]: an existing directory is fine. *)
Definition mkdir (dir : string) (fsys : FileSystem) : Result unit :=
  if decide (dir ∈ denied fsys) then inl EACCES else inr ().

(** [fs.writeFile(path, data, 'utf-8')] *)
Definition writeFile (path data : string) (fsys : FileSystem)
    : Result unit * FileSystem :=
  if decide (path ∈ denied fsys) then (inl EACCES, fsys)
  else (inr (), mkFileSystem (<[path := data]> (files fsys)) (denied fsys)).

(** [fs.readFile(path, 'utf-8')] *)
Definition readFile (path : string) (fsys : FileSystem) : Result string :=
  if decide (path ∈ denied fsys) then inl EACCES
  else match files fsys !! path with
       | Some data => inr data
       | None => inl ENOENT
       end.

(** [fs.unlink(path)] *)
Definition unlink (path : string) (fsys : FileSystem)
    : Result unit * FileSystem :=
  if decide (path ∈ denied fsys) then (inl EACCES, fsys)
  else match files fsys !! path with
       | Some _ => (inr (), mkFileSystem (delete path (files fsys)) (denied fsys))
       | None => (inl ENOENT, fsys)
       end.

(** [fs.readdir(dir)] *)
Definition readdir (dir : string) (fsys : FileSystem) : Result (list string) :=
  if decide (dir ∈ denied fsys) then inl EACCES
  else inr (omap (path_entry dir) (map_to_list (files fsys)).*1).
End fs.

(* ===================================================================== *)
(** * SessionPersistence *)
(* ===================================================================== *)

Module SessionPersistence.
Section methods.
Context `{Platform}.
(** [this.persistenceDir] *)
Variable persistenceDir : string.

Definition initialize (fsys : FileSystem) : Result unit :=
  mkdir persistenceDir fsys.

Definition getSessionFilePath (sessionId : string) : string :=
  path_join persistenceDir (sessionId +:+ ".json").

(** [saveSession(sessionData)]: both failures are rethrown. *)
Definition saveSession (sessionData : PersistedSessionData)
    (fsys : FileSystem) : Result unit * FileSystem :=
  match initialize fsys with
  | inl e => (inl e, fsys)
  | inr _ =>
      let filePath := getSessionFilePath (persistedId sessionData) in
      let data := JSON_stringify sessionData in
      writeFile filePath data fsys
  end.

(** [loadSession(sessionId)]: [inr None] is the [null] of a missing
    file; every other failure is rethrown. *)
Definition loadSession (sessionId : string) (fsys : FileSystem)
    : Result (option PersistedSessionData) :=
  let filePath := getSessionFilePath sessionId in
  match readFile filePath fsys with
  | inr data =>
      match JSON_parse data with
      | Some sessionData => inr (Some sessionData)
      | None => inl SyntaxError
      end
  | inl e =>
      if decide (errorCode e = Some "ENOENT") then inr None else inl e
  end.

(** [deleteSession(sessionId)]: never throws. *)
Definition deleteSession (sessionId : string) (fsys : FileSystem)
    : FileSystem :=
  (unlink (getSessionFilePath sessionId) fsys).2.

(** [listPersistedSessions()]: any failure yields the empty list. *)
Definition listPersistedSessions (fsys : FileSystem) : list string :=
  match initialize fsys with
  | inl _ => []
  | inr _ =>
      match readdir persistenceDir fsys with
      | inl _ => []
      | inr names =>
          replaceFirst ".json" "" <$> filter (λ file, endsWith ".json" file) names
      end
  end.

(** [loadAllSessions()]: identifiers that fail to load are skipped. *)
Definition loadAllSessions (fsys : FileSystem) : list PersistedSessionData :=
  omap (λ sessionId,
          match loadSession sessionId fsys with
          | inr (Some session) => Some session
          | _ => None
          end)
       (listPersistedSessions fsys).



End methods.
End SessionPersistence.

(* ===================================================================== *)
(** * SessionPersistence: cleaning up old records *)
(* ===================================================================== *)

Module SessionPersistenceCleanup.
Import SessionPersistence.

Section methods.
Context `{Platform}.
(** [this.persistenceDir] *)
Variable persistenceDir : string.
(** [new Date(text).getTime()]; [None] is the [NaN] of a text that is not
    a date. *)
Variable parseTime : string → option Z.

(** The test [age > maxAgeMs] of [cleanupOldSessions]; a comparison with
    [NaN] is false. *)
Definition tooOld (maxAgeMs now : Z) (session : PersistedSessionData) : bool :=
  match parseTime (persistedLastAccessedAt session) with
  | Some lastAccessed => maxAgeMs <? now - lastAccessed
  | None => false
  end.

(** [cleanupOldSessions(maxAgeMs = 7 days)]; [now] is [Date.now()]. *)
Definition cleanupOldSessions (maxAgeMs : option Z) (now : Z)
    (fsys : FileSystem) : nat * FileSystem :=
  let maxAgeMs := default (7 * 24 * 60 * 60 * 1000) maxAgeMs in
  let sessions := loadAllSessions persistenceDir fsys in
  foldl (λ '(cleanedCount, fsys) session,
           if tooOld maxAgeMs now session
           then (S cleanedCount, deleteSession persistenceDir (persistedId session) fsys)
           else (cleanedCount, fsys))
        (0%nat, fsys) sessions.

(** The files of the records that [cleanupOldSessions] finds too old. *)
Definition oldFiles (maxAgeMs : option Z) (now : Z) (fsys : FileSystem)
    : list string :=
  (λ session, getSessionFilePath persistenceDir (persistedId session)) <$>
    filter (λ session, tooOld (default (7 * 24 * 60 * 60 * 1000) maxAgeMs) now session = true)
           (loadAllSessions persistenceDir fsys).
End methods.

End SessionPersistenceCleanup.

(* ===================================================================== *)
(** * SessionManager *)
(* ===================================================================== *)

Module SessionManager.

(** [BrowserSession].  [browser] and [page] are handles into the browser
    engine; time stamps are in milliseconds. *)
Record BrowserSession := mkSession {
  id : string;
  browser : nat;
  page : nat;
  browserType : string;
  consoleLog : list string;
  screenshots : gmap string string;
  responsePromises : gmap string nat;
  createdAt : Z;
  lastAccessedAt : Z;
  settings : option BrowserSettings;
}.

Definition set_lastAccessedAt (v : Z) (session : BrowserSession) : BrowserSession :=
  mkSession (id session) (browser session) (page session) (browserType session)
            (consoleLog session) (screenshots session) (responsePromises session)
            (createdAt session) v (settings session).

(** The fields of the class. *)
Record State := mkState {
  sessions : gmap string BrowserSession;
  defaultSessionId : string;
  nextSessionId : N;
}.

Definition set_sessions (v : gmap string BrowserSession) (sm : State) : State :=
  mkState v (defaultSessionId sm) (nextSessionId sm).

(** [new SessionManager()] *)
Definition init : State :=
  {| sessions := ∅; defaultSessionId := "default"; nextSessionId := 1%N |}.

(** The three singletons of the process and the disk they share: the
    session manager, the files of the session persistence and the
    resource manager. *)
Record Process := mkProcess {
  sessionManager : State;
  disk : FileSystem;
  resourceManager : ResourceManager.State;
}.

Definition set_sessionManager (v : State) (w : Process) : Process :=
  mkProcess v (disk w) (resourceManager w).
Definition set_disk (v : FileSystem) (w : Process) : Process :=
  mkProcess (sessionManager w) v (resourceManager w).

(** The directory of the exported [sessionPersistence] singleton. *)
Definition persistenceDir : string := "./.playwright-sessions".

(** ** What the browser engine answers *)

(** What [persistSession] reads from the page. *)
Record PageSnapshot := mkSnapshot {
  (** [page.context().cookies()] *)
  snapshotCookies : Result (list JsValue);
  (** [page.evaluate(..)]: local and session storage, [None] if rejected *)
  snapshotStorage : option (gmap string string * gmap string string);
  (** [page.viewportSize()] *)
  snapshotViewportSize : option Viewport;
  (** [page.url()] *)
  snapshotUrl : string;
}.

(** One launch: [launch], [newContext] and [newPage] return the handles of
    the new browser and page, or one of them throws. *)
Record Launch := mkLaunch {
  launchResult : Result (nat * nat);
  launchSnapshot : PageSnapshot;
}.

(** What the engine answers during one [recoverSession]. *)
Record Recovery := mkRecovery {
  recoveryLaunch : Launch;
  gotoResult : Result unit;
  addCookiesResult : Result unit;
  evaluateResult : Result unit;
}.

Section methods.
Context `{Platform}.

(** [persistSession(session)]: whatever fails, nothing is thrown. *)
Definition persistSession (session : BrowserSession) (snap : PageSnapshot)
    (w : Process) : Process :=
  match snapshotCookies snap with
  | inl _ => w
  | inr cookies =>
      let storageData := default (∅, ∅) (snapshotStorage snap) in
      let viewport := default (mkViewport 1280 720) (snapshotViewportSize snap) in
      let persistedData :=
        {| persistedId := id session;
           persistedBrowserType := browserType session;
           persistedSettings := default noSettings (settings session);
           pageUrl := snapshotUrl snap;
           cookies := cookies;
           localStorage := storageData.1;
           sessionStorage := storageData.2;
           persistedViewport := viewport;
           persistedCreatedAt := toISOString (createdAt session);
           persistedLastAccessedAt := toISOString (lastAccessedAt session);
           metadata := None |} in
      set_disk (SessionPersistence.saveSession persistenceDir persistedData (disk w)).2 w
  end.

(** [createSession(sessionId?, settings?)].  The viewport, head-less flag
    and context options only travel to the engine, whose answer is
    [engine]; [now] is the value of [new Date()]. *)
Definition createSession (sessionId : option string)
    (settings : option BrowserSettings) (engine : Launch) (now : Z)
    (w : Process) : Result string * Process :=
  let sm := sessionManager w in
  (* const id = sessionId || `session-${this.nextSessionId++}` *)
  let '(id, sm) :=
    match truthy sessionId with
    | Some id => (id, sm)
    | None =>
        ("session-" +:+ pretty (nextSessionId sm),
         mkState (sessions sm) (defaultSessionId sm) (nextSessionId sm + 1)%N)
    end in
  let w := set_sessionManager sm w in
  if decide (is_Some (sessions sm !! id)) then
    (inl (Error ("Session with ID '" +:+ id +:+ "' already exists")), w)
  else
    let browserType := default "chromium" (truthy (settings ≫= settingsBrowserType)) in
    if decide (browserType ∈ ["chromium"; "firefox"; "webkit"]) then
      match launchResult engine with
      | inl e => (inl e, w)
      | inr (browser, page) =>
          let session :=
            {| id := id; browser := browser; page := page;
               browserType := browserType; consoleLog := [];
               screenshots := ∅; responsePromises := ∅;
               createdAt := now; lastAccessedAt := now;
               settings := settings |} in
          let w := set_sessionManager (set_sessions (<[id := session]> (sessions sm)) sm) w in
          let w := persistSession session (launchSnapshot engine) w in
          (inr id, w)
      end
    else (inl (Error ("Unknown browser type: " +:+ browserType)), w).

(** [getSession(sessionId?)] *)
Definition getSession (sessionId : option string) (now : Z) (w : Process)
    : option BrowserSession * Process :=
  let sm := sessionManager w in
  let id := default (defaultSessionId sm) (truthy sessionId) in
  match sessions sm !! id with
  | Some session =>
      let session := set_lastAccessedAt now session in
      (Some session,
       set_sessionManager (set_sessions (<[id := session]> (sessions sm)) sm) w)
  | None => (None, w)
  end.

(** [closeSession(sessionId)].  Whether closing the pages and the browser
    fails ([closeFails]) makes no difference: the error is logged and the
    [finally] block deletes the entry. *)
Definition closeSession (sessionId : string) (closeFails : bool) (w : Process)
    : Result unit * Process :=
  let sm := sessionManager w in
  match sessions sm !! sessionId with
  | None => (inl (Error ("Session '" +:+ sessionId +:+ "' not found")), w)
  | Some session =>
      (inr (), set_sessionManager (set_sessions (delete sessionId (sessions sm)) sm) w)
  end.

(** The ['disconnected'] handler that [createSession] registers for the
    session it created under [id]. *)
Definition onDisconnected (id : string) (w : Process) : Process :=
  let sm := sessionManager w in
  set_sessionManager (set_sessions (delete id (sessions sm)) sm) w.

(** [ensureSession(sessionId?, settings?)]; [connected] is the answer of
    [browser.isConnected()], the two launches serve the two possible
    calls of [createSession]. *)
Definition ensureSession (sessionId : option string)
    (settings : option BrowserSettings) (connected : bool)
    (engine1 engine2 : Launch) (now : Z) (w : Process)
    : Result BrowserSession * Process :=
  let id := default (defaultSessionId (sessionManager w)) (truthy sessionId) in
  let '(found, w) := getSession (Some id) now w in
  let '(found, w) :=
    match found with
    | Some session => (inr (Some session), w)
    | None =>
        match createSession (Some id) settings engine1 now w with
        | (inl e, w) => (inl e, w)
        | (inr _, w) => let '(s, w) := getSession (Some id) now w in (inr s, w)
        end
    end in
  match found with
  | inl e => (inl e, w)
  | inr None => (inl (Error ("Failed to create session " +:+ id)), w)
  | inr (Some session) =>
      if connected then (inr session, w)
      else
        let sm := sessionManager w in
        let w := set_sessionManager (set_sessions (delete id (sessions sm)) sm) w in
        match createSession (Some id) settings engine2 now w with
        | (inl e, w) => (inl e, w)
        | (inr _, w) =>
            match getSession (Some id) now w with
            | (Some session, w) => (inr session, w)
            | (None, w) => (inl (Error ("Failed to recreate session " +:+ id)), w)
            end
        end
  end.

(** [recoverSession(sessionId)]: [None] is [null].  The whole body is
    inside [try { .. } catch { return null }]. *)
Definition recoverSession (sessionId : string) (engine : Recovery) (now : Z)
    (w : Process) : option string * Process :=
  match SessionPersistence.loadSession persistenceDir sessionId (disk w) with
  | inl _ => (None, w)
  | inr None => (None, w)
  | inr (Some persistedData) =>
      match createSession (Some sessionId) (Some (persistedSettings persistedData))
                          (recoveryLaunch engine) now w with
      | (inl _, w) => (None, w)
      | (inr newSessionId, w) =>
          match getSession (Some newSessionId) now w with
          | (None, w) => (None, w)
          | (Some session, w) =>
              let navigated :=
                if decide (pageUrl persistedData ≠ "" ∧
                           pageUrl persistedData ≠ "about:blank")
                then gotoResult engine else inr () in
              let cookiesRestored :=
                if decide (cookies persistedData ≠ [])
                then addCookiesResult engine else inr () in
              match navigated, cookiesRestored, evaluateResult engine with
              | inr _, inr _, inr _ => (Some sessionId, w)
              | _, _, _ => (None, w)
              end
          end
      end
  end.

(** The result of [recoverAllSessions]. *)
Record RecoveryReport := mkReport {
  recovered : list string;
  failed : list (string * string);
}.

(** One iteration of the loop of [recoverAllSessions].  The [catch]
    branch of the loop is never taken: [recoverSession] does not throw. *)
Definition recoverNext (engines : string → Recovery) (now : Z)
    (acc : RecoveryReport * Process) (persistedData : PersistedSessionData)
    : RecoveryReport * Process :=
  let '(report, w) := acc in
  let '(sessionId, w) :=
    recoverSession (persistedId persistedData)
                   (engines (persistedId persistedData)) now w in
  match truthy sessionId with
  | Some sessionId =>
      (mkReport (recovered report ++ [sessionId]) (failed report), w)
  | None =>
      (mkReport (recovered report)
                (failed report ++
                   [(persistedId persistedData, "Recovery returned null")]), w)
  end.

(** [recoverAllSessions()]; [engines] gives the engine's answers for the
    recovery of each identifier. *)
Definition recoverAllSessions (engines : string → Recovery) (now : Z)
    (w : Process) : RecoveryReport * Process :=
  let persistedSessions :=
    SessionPersistence.loadAllSessions persistenceDir (disk w) in
  foldl (recoverNext engines now) (mkReport [] [], w) persistedSessions.

(** ** The registry as a transition system *)

Inductive Event :=
  | CreateSession (sessionId : option string) (settings : option BrowserSettings)
                  (engine : Launch) (now : Z)
  | GetSession (sessionId : option string) (now : Z)
  | EnsureSession (sessionId : option string) (settings : option BrowserSettings)
                  (connected : bool) (engine1 engine2 : Launch) (now : Z)
  | CloseSession (sessionId : string) (closeFails : bool)
  | Disconnected (id : string)
  | RecoverSession (sessionId : string) (engine : Recovery) (now : Z)
  | RecoverAllSessions (engines : string → Recovery) (now : Z).

Definition step (w : Process) (e : Event) : Process :=
  match e with
  | CreateSession sessionId settings engine now =>
      (createSession sessionId settings engine now w).2
  | GetSession sessionId now => (getSession sessionId now w).2
  | EnsureSession sessionId settings connected engine1 engine2 now =>
      (ensureSession sessionId settings connected engine1 engine2 now w).2
  | CloseSession sessionId closeFails => (closeSession sessionId closeFails w).2
  | Disconnected id => onDisconnected id w
  | RecoverSession sessionId engine now => (recoverSession sessionId engine now w).2
  | RecoverAllSessions engines now => (recoverAllSessions engines now w).2
  end.

Definition run (evs : list Event) (w : Process) : Process := foldl step w evs.

(** A process that has just started: no session yet, any disk, any
    state of the resource manager. *)
Definition start (fsys : FileSystem) (rm : ResourceManager.State) : Process :=
  mkProcess init fsys rm.
End methods.

End SessionManager.

(* ===================================================================== *)
(** * Sessions: auxiliary notions and the properties as specified *)
(* ===================================================================== *)

Module SessionSpec.
Import SessionManager.

(** The file at [path] holds [data] and may be read. *)
Definition holds (path data : string) (fsys : FileSystem) : Prop :=
  files fsys !! path = Some data ∧ path ∉ denied fsys.

(** The identifier [createSession] registers under, and the counter it
    leaves behind. *)
Definition chosenId (sessionId : option string) (sm : State) : string :=
  match truthy sessionId with
  | Some id => id
  | None => "session-" +:+ pretty (nextSessionId sm)
  end.

Definition counterAfter (sessionId : option string) (sm : State) : N :=
  match truthy sessionId with
  | Some _ => nextSessionId sm
  | None => (nextSessionId sm + 1)%N
  end.

(** From [w] to [w']: the resource manager is untouched, the default
    identifier is the same, and the empty string, if it was not a
    registered identifier, still is not. *)
Definition preserves (w w' : Process) : Prop :=
  resourceManager w' = resourceManager w ∧
  defaultSessionId (sessionManager w') = defaultSessionId (sessionManager w) ∧
  (sessions (sessionManager w) !! "" = None →
   sessions (sessionManager w') !! "" = None).

(** The property as the specification words it: a call of [createSession]
    that returns an identifier has obtained one admission, so the count of
    active browsers of the governor went up by one. *)
Definition admission_per_created_session `{Platform} : Prop :=
  ∀ sessionId settings engine now w id w',
    createSession sessionId settings engine now w = (inr id, w') →
    ResourceManager.activeBrowsers (resourceManager w')
      = ResourceManager.activeBrowsers (resourceManager w) + 1.

(** The second half of the property as the specification words it:
    closing an identifier that is not registered does not throw. *)
Definition close_of_absent_session_returns : Prop :=
  ∀ sessionId closeFails w,
    sessions (sessionManager w) !! sessionId = None →
    (closeSession sessionId closeFails w).1 = inr ().


End SessionSpec.

(* ===================================================================== *)
(** * SessionManager: the remaining methods *)
(* ===================================================================== *)

Module SessionManagerMore.
Import SessionManager SessionSpec.


(** [getSessionCount()] *)
Definition getSessionCount (w : Process) : nat :=
  size (sessions (sessionManager w)).

(** The default of the parameter of [cleanupIdleSessions]. *)
Definition defaultMaxIdleTimeMs : Z := 3600000.

(** The test of [cleanupIdleSessions] on one entry of the registry. *)
Definition idle (maxIdleTimeMs now : Z) (defaultId : string)
    (entry : string * BrowserSession) : Prop :=
  maxIdleTimeMs < now - lastAccessedAt entry.2 ∧ entry.1 ≠ defaultId.

Global Instance idle_dec maxIdleTimeMs now defaultId entry :
  Decision (idle maxIdleTimeMs now defaultId entry).
Proof. unfold idle. apply _. Defined.

(** The record that [persistSession] writes for a session whose page
    answered with the cookies [cookies]. *)
Definition snapshotRecord `{Platform} (session : BrowserSession)
    (snap : PageSnapshot) (cookies : list JsValue) : PersistedSessionData :=
  let storageData := default (∅, ∅) (snapshotStorage snap) in
  {| persistedId := id session;
     persistedBrowserType := browserType session;
     persistedSettings := default noSettings (settings session);
     pageUrl := snapshotUrl snap;
     cookies := cookies;
     localStorage := storageData.1;
     sessionStorage := storageData.2;
     persistedViewport :=
       default (mkViewport 1280 720) (snapshotViewportSize snap);
     persistedCreatedAt := toISOString (createdAt session);
     persistedLastAccessedAt := toISOString (lastAccessedAt session);
     metadata := None |}.

(** The session object that [createSession] builds. *)
Definition newSession (id : string) (handles : nat * nat) (browserType : string)
    (now : Z) (settings : option BrowserSettings) : BrowserSession :=
  {| id := id; browser := handles.1; page := handles.2;
     browserType := browserType; consoleLog := [];
     screenshots := ∅; responsePromises := ∅;
     createdAt := now; lastAccessedAt := now; settings := settings |}.

(** [settings?.browserType || 'chromium'] *)
Definition browserTypeOf (settings : option BrowserSettings) : string :=
  default "chromium" (truthy (settings ≫= settingsBrowserType)).

(** The state [createSession] leaves when it registers [session]. *)
Definition registered (sessionId : option string) (session : BrowserSession)
    (w : Process) : Process :=
  set_sessionManager
    (mkState (<[id session := session]> (sessions (sessionManager w)))
             (defaultSessionId (sessionManager w))
             (counterAfter sessionId (sessionManager w))) w.

(** ** [createSession] around its awaits

    [createSession] is suspended at [await launch(..)],
    [await newContext(..)] and [await newPage()], and other calls on the
    session manager may run in the meantime.  Before the first of these
    awaits it chooses the identifier, tests it and validates the browser
    type; after the last it registers the session, without a second
    test. *)




(** What holds of every entry of the registry. *)
Definition wellKeyed (m : gmap string BrowserSession) : Prop :=
  ∀ k session, m !! k = Some session →
    id session = k ∧ k ≠ "" ∧
    browserType session ∈ ["chromium"; "firefox"; "webkit"].

Section methods.
Context `{Platform}.

(** [closeAllSessions()]: every identifier of the registry is closed and
    the errors are dropped; [closeFails] tells for which sessions the
    engine fails to close. *)
Definition closeAllSessions (closeFails : string → bool) (w : Process) : Process :=
  let sessionIds := (map_to_list (sessions (sessionManager w))).*1 in
  foldl (λ w id, (closeSession id (closeFails id) w).2) w sessionIds.

(** [cleanupIdleSessions(maxIdleTimeMs = 3600000)].  The loop visits the
    entries of the registry and removes none but the one it is at, so it
    sees the entries the registry had at the start; neither the count nor
    the registry it leaves depends on the order of the visit. *)
Definition cleanupIdleSessions (maxIdleTimeMs : option Z)
    (closeFails : string → bool) (now : Z) (w : Process) : nat * Process :=
  let maxIdleTimeMs := default defaultMaxIdleTimeMs maxIdleTimeMs in
  let defaultId := defaultSessionId (sessionManager w) in
  foldl (λ '(cleanedCount, w) entry,
           if decide (idle maxIdleTimeMs now defaultId entry)
           then (S cleanedCount, (closeSession entry.1 (closeFails entry.1) w).2)
           else (cleanedCount, w))
        (0%nat, w) (map_to_list (sessions (sessionManager w))).

(** [deletePersistedSession(sessionId)] *)
Definition deletePersistedSession (sessionId : string) (w : Process) : Process :=
  set_disk (SessionPersistence.deleteSession persistenceDir sessionId (disk w)) w.

(** ** Every method as a call *)

Inductive Call :=
  | Method (e : Event)
  | CleanupIdleSessions (maxIdleTimeMs : option Z) (closeFails : string → bool)
                        (now : Z)
  | CloseAllSessions (closeFails : string → bool)
  | DeletePersistedSession (sessionId : string).

Definition call (w : Process) (c : Call) : Process :=
  match c with
  | Method e => step w e
  | CleanupIdleSessions maxIdleTimeMs closeFails now =>
      (cleanupIdleSessions maxIdleTimeMs closeFails now w).2
  | CloseAllSessions closeFails => closeAllSessions closeFails w
  | DeletePersistedSession sessionId => deletePersistedSession sessionId w
  end.

Definition calls (cs : list Call) (w : Process) : Process := foldl call w cs.
End methods.

End SessionManagerMore.

(* ===================================================================== *)
(** * A stand-in runtime for concrete runs *)
(* ===================================================================== *)

(** The examples at the end of the file need a concrete [Platform].  This
    one writes a record as the text [{id:<identifier>}] and reads such a
    text back as the record [demoRecord <identifier>]; any other text is
    malformed.  Paths are joined with a slash. *)
Module Demo.

Definition demoRecord (sessionId : string) : PersistedSessionData :=
  {| persistedId := sessionId;
     persistedBrowserType := "chromium";
     persistedSettings := noSettings;
     pageUrl := "about:blank";
     cookies := [];
     localStorage := ∅;
     sessionStorage := ∅;
     persistedViewport := mkViewport 1280 720;
     persistedCreatedAt := "0";
     persistedLastAccessedAt := "0";
     metadata := None |}.

Definition demoStringify (data : PersistedSessionData) : string :=
  "{id:" +:+ persistedId data +:+ "}".

Definition demoParse (text : string) : option PersistedSessionData :=
  let n := String.length text in
  if String.prefix "{id:" text && endsWith "}" text
  then Some (demoRecord (String.substring 4 (n - 5) text))
  else None.

Definition demoJoin (dir file : string) : string := dir +:+ "/" +:+ file.

Definition demoEntry (dir path : string) : option string :=
  let p := dir +:+ "/" in
  if String.prefix p path
  then Some (String.substring (String.length p)
                              (String.length path - String.length p) path)
  else None.

Definition demoPlatform : Platform :=
  {| JSON_stringify := demoStringify;
     JSON_parse := demoParse;
     path_join := demoJoin;
     path_entry := demoEntry;
     toISOString := pretty |}.

(** An engine that launches browser 1 with page 1, on a blank page. *)
Definition blankPage : SessionManager.PageSnapshot :=
  SessionManager.mkSnapshot (inr []) (Some (∅, ∅)) (Some (mkViewport 1280 720))
                            "about:blank".
Definition launchOk : SessionManager.Launch :=
  SessionManager.mkLaunch (inr (1%nat, 1%nat)) blankPage.
Definition recoveryOk : SessionManager.Recovery :=
  SessionManager.mkRecovery launchOk (inr ()) (inr ()) (inr ()).

Definition emptyDisk : FileSystem := mkFileSystem ∅ ∅.

(** A disk whose only file, the record of session s1, is malformed. *)
Definition brokenDisk : FileSystem :=
  mkFileSystem {[ "./.playwright-sessions/s1.json" := "garbage" ]} ∅.

(** A process that has just started, with the default resource limits. *)
Definition freshProcess : SessionManager.Process :=
  SessionManager.start emptyDisk (ResourceManager.init ResourceManager.defaultConfig).

End Demo.

(* ===================================================================== *)
(** * Paths as Node joins them *)
(* ===================================================================== *)

(** [path.join] of Node (POSIX flavour) does not merely concatenate: it
    normalises the joined path, dropping empty and [.] segments and
    resolving [..].  Two identifiers may therefore name one file. *)
Module NodePaths.







End NodePaths.

(* ===================================================================== *)
(** * SessionPersistence: the round trip as the specification words it *)
(* ===================================================================== *)

Module SessionPersistenceSpec.
Import SessionPersistence.


End SessionPersistenceSpec.
(* ===================================================================== *)
(** * Properties of the stable sort *)
(* ===================================================================== *)

Section js_sort_facts.
Context {A : Type} (cmp : A → A → Z).

Lemma sort_insert_Forall (P : A → Prop) x l :
  Forall P (sort_insert cmp x l) ↔ P x ∧ Forall P l.
Proof.
  induction l as [|y l IH]; simpl.
  - rewrite Forall_singleton. intuition.
  - destruct (cmp x y <=? 0).
    + rewrite !Forall_cons. tauto.
    + rewrite !Forall_cons, IH. tauto.
Qed.

Lemma js_sort_Forall (P : A → Prop) l :
  Forall P (js_sort cmp l) ↔ Forall P l.
Proof.
  induction l as [|x l IH]; simpl; [done|].
  rewrite sort_insert_Forall, Forall_cons, IH. tauto.
Qed.

Lemma sort_insert_length x l : length (sort_insert cmp x l) = S (length l).
Proof.
  induction l as [|y l IH]; simpl; [done|].
  destruct (cmp x y <=? 0); simpl; congruence.
Qed.

Lemma js_sort_length l : length (js_sort cmp l) = length l.
Proof.
  induction l as [|x l IH]; simpl; [done|].
  rewrite sort_insert_length. congruence.
Qed.

Lemma sort_insert_Permutation x l : sort_insert cmp x l ≡ₚ x :: l.
Proof.
  induction l as [|y l IH]; simpl; [done|].
  destruct (cmp x y <=? 0); [done|].
  rewrite IH. apply Permutation_swap.
Qed.

Lemma js_sort_Permutation l : js_sort cmp l ≡ₚ l.
Proof.
  induction l as [|x l IH]; simpl; [done|].
  rewrite sort_insert_Permutation. by f_equiv.
Qed.
End js_sort_facts.

Lemma filter_none {A} (P : A → Prop) `{!∀ x, Decision (P x)} (l : list A) :
  Forall (λ x, ¬ P x) l → filter P l = [].
Proof.
  induction 1 as [|x l Hx Hl IH]; [done|].
  by rewrite filter_cons_False.
Qed.

(* ===================================================================== *)
(** * ResourceManager: the service order is kept by [enqueue] *)
(* ===================================================================== *)

Module ResourceManagerOrder.
Import ResourceManager.

Lemma servedBefore_trans a b c :
  servedBefore a b → servedBefore b c → servedBefore a c.
Proof. unfold servedBefore. lia. Qed.

Lemma compare_nonpos_servedBefore x y :
  compareOperations x y ≤ 0 → tieOrder x y → servedBefore x y.
Proof.
  unfold compareOperations, tieOrder, servedBefore.
  case_decide; intros; [lia|].
  destruct (decide (createdAt x = createdAt y)); [|lia].
  right. split; [lia|]. right. split; [done|]. apply H1; lia.
Qed.

Lemma compare_pos_servedBefore x y :
  0 < compareOperations x y → servedBefore y x.
Proof. unfold compareOperations, servedBefore. case_decide; lia. Qed.

Lemma sort_insert_sorted x l :
  StronglySorted servedBefore l → Forall (tieOrder x) l →
  StronglySorted servedBefore (sort_insert compareOperations x l).
Proof.
  induction 1 as [|y l Hl IH Hy]; intros Hx; simpl.
  - repeat constructor.
  - apply Forall_cons in Hx as [Hxy Hx].
    destruct (Z.leb_spec (compareOperations x y) 0) as [Hc|Hc].
    + assert (servedBefore x y) by by apply compare_nonpos_servedBefore.
      constructor; [by constructor|].
      constructor; [done|].
      eapply Forall_impl; [exact Hy|].
      intros z ?. by eapply servedBefore_trans.
    + constructor; [by apply IH|].
      apply sort_insert_Forall. split; [|done].
      by apply compare_pos_servedBefore.
Qed.

Lemma js_sort_sorted l :
  StronglySorted tieOrder l →
  StronglySorted servedBefore (js_sort compareOperations l).
Proof.
  induction 1 as [|x l Hl IH Hx]; simpl; [constructor|].
  apply sort_insert_sorted; [done|]. by apply js_sort_Forall.
Qed.

(** A sorted queue followed by an operation with a fresh, larger identifier
    has the shape a stable sort needs. *)
Lemma push_tieOrder q op :
  StronglySorted servedBefore q →
  Forall (λ o, (id o < id op)%N) q →
  StronglySorted tieOrder (q ++ [op]).
Proof.
  induction 1 as [|y l Hl IH Hy]; intros Hid; simpl.
  - repeat constructor.
  - apply Forall_cons in Hid as [Hy_id Hid].
    constructor; [by apply IH|].
    apply Forall_app. split.
    + eapply Forall_impl; [exact Hy|].
      unfold servedBefore, tieOrder. intros z ?. lia.
    + apply Forall_singleton. unfold tieOrder. lia.
Qed.

Lemma servedBefore_irrefl a : ¬ servedBefore a a.
Proof. unfold servedBefore. lia. Qed.

End ResourceManagerOrder.

(* ===================================================================== *)
(** * ResourceManager: invariants *)
(* ===================================================================== *)

Module ResourceManagerInvariants.
Import ResourceManager ResourceManagerSpec ResourceManagerOrder.

(** ** Facts about [spliceFirst] *)

Lemma spliceFirst_Forall (P : QueuedOperation → Prop) i q :
  Forall P q → Forall P (spliceFirst i q).
Proof.
  induction 1 as [|op q Hop Hq IH]; simpl; [done|].
  case_decide; [done|]. by constructor.
Qed.

Lemma spliceFirst_sorted (R : relation QueuedOperation) i q :
  StronglySorted R q → StronglySorted R (spliceFirst i q).
Proof.
  induction 1 as [|op q Hq IH Hop]; simpl; [constructor|].
  case_decide; [done|].
  constructor; [done|]. by apply spliceFirst_Forall.
Qed.

Lemma spliceFirst_ids i j q :
  NoDup (id <$> q) →
  j ∈ id <$> spliceFirst i q ↔ j ∈ id <$> q ∧ j ≠ i.
Proof.
  induction q as [|op q IH]; simpl; intros Hnd.
  - rewrite elem_of_nil. tauto.
  - apply NoDup_cons in Hnd as [Hop Hnd].
    case_decide as Hi; subst.
    + rewrite elem_of_cons. split; [|tauto].
      intros Hj. split; [by right|]. by intros ->.
    + rewrite fmap_cons, !elem_of_cons, IH by done.
      split; [|tauto]. intros [->|[??]]; auto.
Qed.

Lemma spliceFirst_NoDup i q :
  NoDup (id <$> q) → NoDup (id <$> spliceFirst i q).
Proof.
  induction q as [|op q IH]; simpl; intros Hnd; [done|].
  pose proof Hnd as Hnd'.
  apply NoDup_cons in Hnd as [Hop Hnd].
  case_decide; [done|].
  rewrite fmap_cons. apply NoDup_cons. split; [|by apply IH].
  rewrite spliceFirst_ids by done. tauto.
Qed.

Lemma spliceFirst_length i q :
  (length (spliceFirst i q) ≤ length q)%nat.
Proof.
  induction q as [|op q IH]; simpl; [done|].
  case_decide; simpl; lia.
Qed.

Lemma spliceFirst_head op rest : spliceFirst (id op) (op :: rest) = rest.
Proof. simpl. by rewrite decide_True. Qed.

(** ** Facts about the outcome log *)

Lemma outcomesIn_cons_eq i o log :
  outcomesIn i ((i, o) :: log) = o :: outcomesIn i log.
Proof. unfold outcomesIn. by rewrite filter_cons_True. Qed.

Lemma outcomesIn_cons_ne i j o log :
  j ≠ i → outcomesIn i ((j, o) :: log) = outcomesIn i log.
Proof. intros. unfold outcomesIn. by rewrite filter_cons_False. Qed.

Lemma outcomesIn_fresh i (next : N) log :
  Forall (λ p, (p.1 < next)%N) log → (next ≤ i)%N → outcomesIn i log = [].
Proof.
  induction 1 as [|[j o] log Hj Hlog IH]; intros Hi; [done|].
  simpl in Hj. rewrite outcomesIn_cons_ne by lia. by apply IH.
Qed.

Lemma outcomesIn_elem i o log : o ∈ outcomesIn i log ↔ (i, o) ∈ log.
Proof.
  unfold outcomesIn. rewrite list_elem_of_fmap. split.
  - intros ([j o'] & -> & Hin). apply list_elem_of_filter in Hin as [Hj Hin].
    simpl in *. by subst.
  - intros Hin. exists (i, o). split; [done|].
    apply list_elem_of_filter. by split.
Qed.

(** ** The ledger is kept *)

Lemma Ledger_init cfg : Ledger cfg [] 1 ∅ [].
Proof.
  split; simpl; try done.
  - lia.
  - constructor.
  - constructor.
  - intros i. rewrite elem_of_nil. lia.
  - intros i. rewrite elem_of_nil, elem_of_empty. tauto.
  - intros i. lia.
Qed.

(** Delivering an outcome to a queued operation and removing it. *)
Lemma Ledger_remove cfg q next tm log i o :
  Ledger cfg q next tm log → i ∈ id <$> q →
  Ledger cfg (spliceFirst i q) next (tm ∖ {[ i ]}) ((i, o) :: log).
Proof.
  intros [Hlen Hsort Hnd Hbound Hnext Htm Hlog Honce] Hi. split.
  - pose proof (spliceFirst_length i q). lia.
  - by apply spliceFirst_sorted.
  - by apply spliceFirst_NoDup.
  - intros j. rewrite spliceFirst_ids by done. intros [??]. by apply Hbound.
  - done.
  - intros j. rewrite spliceFirst_ids by done.
    rewrite elem_of_difference, Htm, elem_of_singleton. tauto.
  - constructor; [|done]. simpl. apply Hbound in Hi. lia.
  - intros j Hj. rewrite spliceFirst_ids by done.
    destruct (decide (j = i)) as [->|Hne].
    + right. split; [tauto|]. exists o.
      rewrite outcomesIn_cons_eq.
      destruct (Honce i Hj) as [[_ ->]|[? _]]; [done|tauto].
    + rewrite outcomesIn_cons_ne by done.
      destruct (Honce j Hj) as [[??]|[??]]; [left|right]; tauto.
Qed.

(** Enqueueing a fresh operation. *)
Lemma Ledger_push cfg q next tm log ty u p now :
  Ledger cfg q next tm log → Z.of_nat (length q) < maxQueueSize cfg →
  Ledger cfg (js_sort compareOperations (q ++ [mkOp next ty u p now]))
         (next + 1) ({[ next ]} ∪ tm) log.
Proof.
  intros [Hlen Hsort Hnd Hbound Hnext Htm Hlog Honce] Hroom.
  set (op := mkOp next ty u p now).
  assert (Hids : ∀ j, j ∈ id <$> js_sort compareOperations (q ++ [op])
                      ↔ j ∈ id <$> q ∨ j = next).
  { intros j. rewrite js_sort_Permutation, fmap_app, elem_of_app.
    simpl. rewrite list_elem_of_singleton. tauto. }
  assert (Hfresh : next ∉ (id <$> q)).
  { intros Hin. apply Hbound in Hin. lia. }
  split.
  - rewrite js_sort_length, length_app. simpl. lia.
  - apply js_sort_sorted, push_tieOrder; [done|].
    apply Forall_forall. intros o Ho. simpl.
    assert (id o ∈ id <$> q) as Hin by by apply list_elem_of_fmap_2.
    apply Hbound in Hin. lia.
  - rewrite js_sort_Permutation, fmap_app. simpl.
    apply NoDup_app. split; [done|]. split.
    + intros j Hj. rewrite list_elem_of_singleton. by intros ->.
    + apply NoDup_singleton.
  - intros j. rewrite Hids. intros [Hj| ->]; [apply Hbound in Hj|]; lia.
  - lia.
  - intros j. rewrite Hids, elem_of_union, elem_of_singleton, Htm. tauto.
  - eapply Forall_impl; [exact Hlog|]. simpl. intros; lia.
  - intros j Hj. rewrite Hids.
    destruct (decide (j = next)) as [->|Hne].
    + left. split; [by right|]. by eapply outcomesIn_fresh.
    + destruct (Honce j) as [[??]|[??]]; [lia|left|right]; tauto.
Qed.

(** ** Grants *)

Lemma grant_frame u s :
  config (grant u s) = config s ∧ queue (grant u s) = queue s ∧
  nextOperationId (grant u s) = nextOperationId s ∧
  timers (grant u s) = timers s ∧ settled (grant u s) = settled s ∧
  processing (grant u s) = processing s ∧
  activeBrowsers (grant u s) = activeBrowsers s + 1.
Proof. unfold grant. by destruct (truthy u). Qed.

Lemma grant_users u s :
  sessionsByUser (grant u s) =
    match truthy u with
    | Some v => <[v := default 0 (sessionsByUser s !! v) + 1]> (sessionsByUser s)
    | None => sessionsByUser s
    end.
Proof. unfold grant. by destruct (truthy u). Qed.

Lemma ledger_grant u s : ledger (grant u s) ↔ ledger s.
Proof.
  unfold ledger.
  destruct (grant_frame u s) as (-> & -> & -> & -> & -> & _). done.
Qed.

(** A grant under spare capacity, to a user below the per-user limit. *)
Lemma counters_grant u s :
  counters s →
  activeBrowsers s < maxConcurrentBrowsers (config s) →
  (∀ v c, truthy u = Some v → sessionsByUser s !! v = Some c →
          c < maxSessionsPerUser (config s)) →
  counters (grant u s).
Proof.
  intros [Hact Husers] Hcap Hlim. unfold counters.
  destruct (grant_frame u s) as (-> & _ & _ & _ & _ & _ & ->).
  rewrite grant_users. split; [lia|].
  destruct (truthy u) as [v|] eqn:Hu; [|done].
  intros w c. rewrite lookup_insert. case_decide as Hw; [|by apply Husers].
  subst w. intros [= <-].
  destruct (sessionsByUser s !! v) as [c0|] eqn:Hv; simpl; [|lia].
  specialize (Husers _ _ Hv). specialize (Hlim _ _ eq_refl Hv). lia.
Qed.

Lemma limited_false_below cfg users op v c :
  limited cfg users op = false → truthy (userId op) = Some v →
  users !! v = Some c → c < maxSessionsPerUser cfg.
Proof.
  unfold limited. intros Hl Hu Hv. rewrite Hu, Hv in Hl. simpl in Hl. lia.
Qed.

(** ** One iteration and the whole loop of [processQueue] *)

Lemma processQueue_loop_cons op rest s :
  processQueue_loop (op :: rest) s =
    if activeBrowsers s <? maxConcurrentBrowsers (config s)
    then processQueue_loop rest (processOne op rest s)
    else s.
Proof.
  cbn [processQueue_loop]. destruct (_ <? _); [|done].
  unfold processOne, limited, userSessions. cbn [config sessionsByUser clearTimeout set_queue set_timers].
  by destruct (truthy (userId op)) as [v|]; [destruct (_ <=? _)|].
Qed.

Lemma processOne_frame op rest s :
  config (processOne op rest s) = config s ∧
  queue (processOne op rest s) = rest ∧
  nextOperationId (processOne op rest s) = nextOperationId s ∧
  processing (processOne op rest s) = processing s ∧
  timers (processOne op rest s) = timers s ∖ {[ id op ]}.
Proof.
  unfold processOne. destruct (limited _ _ _); simpl; [done|].
  by destruct (grant_frame (userId op)
                 (clearTimeout (id op) (set_queue rest s)))
    as (-> & -> & -> & -> & _ & -> & _).
Qed.

Lemma processOne_ledger op rest s :
  queue s = op :: rest → ledger s → ledger (processOne op rest s).
Proof.
  intros Hq Hl. unfold ledger in Hl. rewrite Hq in Hl.
  assert (id op ∈ id <$> op :: rest) as Hin by (rewrite fmap_cons; left).
  unfold processOne. destruct (limited _ _ _).
  - pose proof (Ledger_remove _ _ _ _ _ _ UserLimitReached Hl Hin) as H.
    by rewrite spliceFirst_head in H.
  - pose proof (Ledger_remove _ _ _ _ _ _ Granted Hl Hin) as H.
    rewrite spliceFirst_head in H. unfold ledger, settle. simpl.
    by destruct (grant_frame (userId op)
                   (clearTimeout (id op) (set_queue rest s)))
      as (-> & -> & -> & -> & -> & _).
Qed.

Lemma processOne_counters op rest s :
  activeBrowsers s < maxConcurrentBrowsers (config s) →
  counters s → counters (processOne op rest s).
Proof.
  intros Hcap Hc. unfold processOne.
  destruct (limited _ _ _) eqn:Hlim; [done|].
  change (counters (grant (userId op) (clearTimeout (id op) (set_queue rest s)))).
  apply counters_grant; [done..|].
  intros v c. by apply limited_false_below.
Qed.

(** Whatever one iteration preserves, the loop preserves. *)
Lemma processQueue_loop_preserves (P : State → Prop) :
  (∀ op rest s, queue s = op :: rest →
     activeBrowsers s < maxConcurrentBrowsers (config s) →
     P s → P (processOne op rest s)) →
  ∀ q s, queue s = q → P s → P (processQueue_loop q s).
Proof.
  intros Hstep q. induction q as [|op rest IH]; intros s Hq HP; [done|].
  rewrite processQueue_loop_cons.
  destruct (Z.ltb_spec (activeBrowsers s) (maxConcurrentBrowsers (config s)));
    [|done].
  apply IH; [apply processOne_frame|]. by apply Hstep.
Qed.

(** The loop ends because the queue is empty or the capacity is used up:
    it never runs out of queue before its guard fails. *)
Lemma processQueue_loop_exit q s :
  queue s = q →
  queue (processQueue_loop q s) = [] ∨
  maxConcurrentBrowsers (config (processQueue_loop q s))
    ≤ activeBrowsers (processQueue_loop q s).
Proof.
  revert s. induction q as [|op rest IH]; intros s Hq; [by left|].
  rewrite processQueue_loop_cons.
  destruct (Z.ltb_spec (activeBrowsers s) (maxConcurrentBrowsers (config s)));
    [|by right].
  apply IH, processOne_frame.
Qed.

Lemma processQueue_loop_config q s :
  queue s = q → config (processQueue_loop q s) = config s.
Proof.
  intros Hq.
  apply (processQueue_loop_preserves (λ s', config s' = config s)); [|done..].
  intros op rest s' _ _ <-. apply processOne_frame.
Qed.

Lemma processQueue_Inv s :
  ledger s → counters s → processing s = false → Inv (processQueue s).
Proof.
  intros Hl Hc Hp. unfold processQueue. rewrite Hp. simpl.
  case_bool_decide as Hq.
  { split; try done. }
  set (s1 := set_processing true s).
  assert (queue s1 = queue s) as Hq1 by done.
  split.
  - change (ledger (processQueue_loop (queue s) s1)).
    apply (processQueue_loop_preserves ledger); [|done..].
    intros. by apply processOne_ledger.
  - change (counters (processQueue_loop (queue s) s1)).
    apply (processQueue_loop_preserves counters); [|done..].
    intros. by apply processOne_counters.
  - done.
  - change (queue (processQueue_loop (queue s) s1) ≠ [] →
            maxConcurrentBrowsers (config (processQueue_loop (queue s) s1))
              ≤ activeBrowsers (processQueue_loop (queue s) s1)).
    destruct (processQueue_loop_exit (queue s) s1 Hq1); [done|lia].
Qed.

Lemma processQueue_config s : config (processQueue s) = config s.
Proof.
  unfold processQueue. destruct (_ || _); [done|]. simpl.
  by rewrite processQueue_loop_config.
Qed.

(** ** Every event keeps the invariant *)

Lemma Inv_init cfg : Inv (init cfg).
Proof.
  split; try done.
  - apply Ledger_init.
  - split; simpl; [lia|]. intros u c. by rewrite lookup_empty.
Qed.

Lemma requestBrowserLaunch_Inv u prio now s :
  Inv s → Inv (requestBrowserLaunch u prio now s).2.
Proof.
  intros [Hl Hc Hp Hsat]. unfold requestBrowserLaunch.
  destruct (Z.leb_spec (maxConcurrentBrowsers (config s)) (activeBrowsers s))
    as [Hfull|Hfree].
  - destruct (Z.leb_spec (maxQueueSize (config s)) (Z.of_nat (length (queue s))))
      as [Hqfull|Hroom]; simpl; [done|].
    split; try done.
    by apply (Ledger_push _ _ _ _ _ browser_launch u (default 0 prio) now Hl).
  - assert (queue s = []) as Hempty.
    { destruct (queue s) eqn:Hq; [done|]. specialize (Hsat ltac:(done)). lia. }
    destruct (match truthy u with Some _ => _ | None => _ end) eqn:Hlim;
      simpl; [done|].
    split.
    + by apply ledger_grant.
    + apply counters_grant; [done..|].
      intros v c Hv Hvc. rewrite Hv, Hvc in Hlim. lia.
    + by destruct (grant_frame u s) as (_ & _ & _ & _ & _ & -> & _).
    + destruct (grant_frame u s) as (_ & -> & _). by rewrite Hempty.
Qed.

Lemma requestBrowserLaunch_config u prio now s :
  config (requestBrowserLaunch u prio now s).2 = config s.
Proof.
  unfold requestBrowserLaunch.
  repeat (destruct (_ <=? _); simpl; try done).
  destruct (match truthy u with Some _ => _ | None => _ end); simpl; [done|].
  apply grant_frame.
Qed.

Lemma releaseBrowser_unfold u s :
  releaseBrowser u s = processQueue (releaseCounters u s).
Proof. done. Qed.

Lemma releaseCounters_frame u s :
  config (releaseCounters u s) = config s ∧
  queue (releaseCounters u s) = queue s ∧
  nextOperationId (releaseCounters u s) = nextOperationId s ∧
  timers (releaseCounters u s) = timers s ∧
  settled (releaseCounters u s) = settled s ∧
  processing (releaseCounters u s) = processing s ∧
  activeBrowsers (releaseCounters u s) = Z.max 0 (activeBrowsers s - 1).
Proof.
  unfold releaseCounters. destruct (truthy u); [|done].
  by destruct (1 <? _).
Qed.

Lemma releaseCounters_counters u s :
  counters s → counters (releaseCounters u s).
Proof.
  intros [Hact Husers]. unfold counters.
  destruct (releaseCounters_frame u s) as (-> & _ & _ & _ & _ & _ & ->).
  split; [lia|]. unfold releaseCounters.
  destruct (truthy u) as [v|]; [|done].
  unfold userSessions. simpl.
  destruct (Z.ltb_spec 1 (default 0 (sessionsByUser s !! v))) as [Hgt|Hle];
    simpl; intros w c.
  - rewrite lookup_insert. case_decide; [|by apply Husers].
    intros [= <-].
    destruct (sessionsByUser s !! v) as [c0|] eqn:Hv; simpl in *; [|lia].
    specialize (Husers _ _ Hv). lia.
  - rewrite lookup_delete. case_decide; [done|by apply Husers].
Qed.

Lemma releaseBrowser_Inv u s : Inv s → Inv (releaseBrowser u s).
Proof.
  intros [Hl Hc Hp _]. rewrite releaseBrowser_unfold.
  apply processQueue_Inv.
  - unfold ledger.
    by destruct (releaseCounters_frame u s) as (-> & -> & -> & -> & -> & _).
  - by apply releaseCounters_counters.
  - by destruct (releaseCounters_frame u s) as (_ & _ & _ & _ & _ & -> & _).
Qed.

Lemma spliceFirst_nil_inv i q : q = [] → spliceFirst i q = [].
Proof. by intros ->. Qed.

Lemma difference_twice (X : gset N) i : X ∖ {[ i ]} ∖ {[ i ]} = X ∖ {[ i ]}.
Proof. apply set_eq. intros x. rewrite !elem_of_difference. tauto. Qed.

Lemma timerFires_Inv i s : Inv s → Inv (step s (TimerFires i)).
Proof.
  intros [Hl Hc Hp Hsat]. simpl. case_decide as Hi; [|done].
  assert (i ∈ id <$> queue s) as Hin by by apply (ledger_timers _ _ _ _ _ Hl).
  unfold timeoutCallback, removeFromQueue, queueIds. simpl.
  rewrite decide_True by done.
  pose proof (Ledger_remove _ _ _ _ _ _ TimedOut Hl Hin) as Hl'.
  split; try done.
  - unfold ledger. simpl.
    by rewrite difference_twice.
  - simpl. intros Hne. apply Hsat. intros Hq. by rewrite Hq in Hne.
Qed.

Lemma clearQueue_fold q : ∀ s cfg next,
  Ledger cfg q next (timers s) (settled s) →
  Ledger cfg [] next (timers (foldl clearOne s q)) (settled (foldl clearOne s q)).
Proof.
  induction q as [|op q IH]; intros s cfg next Hl; [done|].
  simpl. apply IH.
  assert (id op ∈ id <$> op :: q) as Hin by (rewrite fmap_cons; left).
  pose proof (Ledger_remove _ _ _ _ _ _ QueueCleared Hl Hin) as H.
  by rewrite spliceFirst_head in H.
Qed.

Lemma clearQueue_fold_frame q : ∀ s,
  config (foldl clearOne s q) = config s ∧
  activeBrowsers (foldl clearOne s q) = activeBrowsers s ∧
  sessionsByUser (foldl clearOne s q) = sessionsByUser s ∧
  nextOperationId (foldl clearOne s q) = nextOperationId s ∧
  processing (foldl clearOne s q) = processing s.
Proof.
  induction q as [|op q IH]; intros s; [done|].
  simpl. by destruct (IH (clearOne s op)) as (-> & -> & -> & -> & ->).
Qed.

Lemma clearQueue_Inv s : Inv s → Inv (clearQueue s).2.
Proof.
  intros [Hl Hc Hp Hsat]. unfold clearQueue. simpl.
  change (foldl _ s (queue s)) with (foldl clearOne s (queue s)).
  destruct (clearQueue_fold_frame (queue s) s) as (Hcfg & Hact & Hus & Hnx & Hpr).
  split; unfold ledger, counters; simpl.
  - rewrite Hcfg, Hnx. by apply clearQueue_fold.
  - by rewrite Hcfg, Hact, Hus.
  - by rewrite Hpr.
  - done.
Qed.

Lemma step_Inv s e : Inv s → Inv (step s e).
Proof.
  destruct e as [u prio now|u|i|]; intros HI.
  - by apply requestBrowserLaunch_Inv.
  - by apply releaseBrowser_Inv.
  - by apply timerFires_Inv.
  - by apply clearQueue_Inv.
Qed.

Lemma step_config s e : config (step s e) = config s.
Proof.
  destruct e as [u prio now|u|i|]; simpl.
  - apply requestBrowserLaunch_config.
  - rewrite releaseBrowser_unfold, processQueue_config.
    apply releaseCounters_frame.
  - case_decide; [|done].
    unfold timeoutCallback, removeFromQueue. simpl. by case_decide.
  - unfold clearQueue. simpl.
    change (foldl _ s (queue s)) with (foldl clearOne s (queue s)).
    apply clearQueue_fold_frame.
Qed.

Lemma run_snoc evs e s : run (evs ++ [e]) s = step (run evs s) e.
Proof. unfold run. by rewrite foldl_app. Qed.

Lemma run_Inv evs s : Inv s → Inv (run evs s).
Proof.
  induction evs as [|e evs IH] using rev_ind; intros HI; [done|].
  rewrite run_snoc. by apply step_Inv, IH.
Qed.

Lemma run_config evs s : config (run evs s) = config s.
Proof.
  induction evs as [|e evs IH] using rev_ind; [done|].
  by rewrite run_snoc, step_config.
Qed.

End ResourceManagerInvariants.

(* ===================================================================== *)
(** * ResourceManager: which request a release serves *)
(* ===================================================================== *)

Module ResourceManagerService.
Import ResourceManager ResourceManagerSpec ResourceManagerOrder ResourceManagerInvariants.

Lemma firstEligible_spec cfg users q :
  let '(pre, r) := firstEligible cfg users q in
  Forall (λ o, limited cfg users o = true) pre ∧
  match r with
  | Some (g, post) => q = pre ++ g :: post ∧ limited cfg users g = false
  | None => q = pre
  end.
Proof.
  induction q as [|op rest IH]; simpl; [done|].
  destruct (limited cfg users op) eqn:Hl.
  - destruct (firstEligible cfg users rest) as [pre [[g post]|]].
    + destruct IH as (Hpre & -> & Hg). by repeat constructor.
    + destruct IH as (Hpre & ->). by repeat constructor.
  - by repeat constructor.
Qed.

Lemma processQueue_loop_full q s :
  maxConcurrentBrowsers (config s) ≤ activeBrowsers s →
  processQueue_loop q s = s.
Proof.
  intros Hfull. destruct q as [|op rest]; [done|].
  rewrite processQueue_loop_cons.
  by destruct (Z.ltb_spec (activeBrowsers s) (maxConcurrentBrowsers (config s)));
    [lia|].
Qed.

(** With exactly one free slot the loop rejects the limited operations at
    the head of the queue, grants the first eligible one and stops. *)
Lemma processQueue_loop_one_slot q : ∀ s,
  queue s = q →
  activeBrowsers s + 1 = maxConcurrentBrowsers (config s) →
  let s' := processQueue_loop q s in
  match firstEligible (config s) (sessionsByUser s) q with
  | (pre, Some (g, post)) =>
      settled s' = (id g, Granted) :: rejections pre ++ settled s ∧
      queue s' = post
  | (pre, None) =>
      settled s' = rejections pre ++ settled s ∧ queue s' = []
  end.
Proof.
  induction q as [|op rest IH]; intros s Hq Hslot; [done|].
  cbn zeta. rewrite processQueue_loop_cons.
  destruct (Z.ltb_spec (activeBrowsers s) (maxConcurrentBrowsers (config s)));
    [|lia].
  simpl. unfold processOne. simpl.
  destruct (limited (config s) (sessionsByUser s) op) eqn:Hl.
  - set (s2 := settle (id op) UserLimitReached
                 (clearTimeout (id op) (set_queue rest s))).
    specialize (IH s2 eq_refl Hslot). cbn zeta in IH.
    change (config s2) with (config s) in IH.
    change (sessionsByUser s2) with (sessionsByUser s) in IH.
    destruct (firstEligible (config s) (sessionsByUser s) rest)
      as [pre [[g post]|]]; destruct IH as [-> ->]; split; try done.
    + unfold rejections. rewrite fmap_cons, reverse_cons, <- !app_assoc. done.
    + unfold rejections. rewrite fmap_cons, reverse_cons, <- !app_assoc. done.
  - set (s2 := settle (id op) Granted
                 (grant (userId op) (clearTimeout (id op) (set_queue rest s)))).
    assert (config s2 = config s ∧ activeBrowsers s2 = activeBrowsers s + 1
            ∧ queue s2 = rest ∧ settled s2 = (id op, Granted) :: settled s)
      as (Hc & Ha & Hq2 & Hs2).
    { unfold s2. simpl.
      by destruct (grant_frame (userId op)
                     (clearTimeout (id op) (set_queue rest s)))
        as (-> & -> & _ & _ & -> & _ & ->). }
    rewrite processQueue_loop_full by (rewrite Hc, Ha; lia).
    by rewrite Hs2, Hq2.
Qed.

(** Operations of a duplicate-free queue are told apart by their ids. *)
Lemma NoDup_ids_inj (q : list QueuedOperation) a b :
  NoDup (id <$> q) → a ∈ q → b ∈ q → id a = id b → a = b.
Proof.
  induction q as [|x q IH]; intros Hnd Ha Hb Hid; [by apply elem_of_nil in Ha|].
  rewrite fmap_cons in Hnd. apply NoDup_cons in Hnd as [Hx Hnd].
  apply elem_of_cons in Ha as [->|Ha]; apply elem_of_cons in Hb as [->|Hb].
  - done.
  - destruct Hx. rewrite Hid. by apply list_elem_of_fmap_2.
  - destruct Hx. rewrite <- Hid. by apply list_elem_of_fmap_2.
  - by apply IH.
Qed.

Lemma rejections_not_granted pre i : (i, Granted) ∉ rejections pre.
Proof.
  unfold rejections. rewrite elem_of_reverse, list_elem_of_fmap.
  by intros (o & [=] & _).
Qed.

End ResourceManagerService.

(* ===================================================================== *)
(** * ResourceManager: the admission properties *)
(* ===================================================================== *)

Module ResourceManagerClaims.
Import ResourceManager ResourceManagerSpec ResourceManagerOrder ResourceManagerInvariants.
Import ResourceManagerService.

Lemma reachable_Inv cfg evs : Inv (run evs (init cfg)).
Proof. apply run_Inv, Inv_init. Qed.

(** Identifiers are handed out in sequence: the requests enqueued so far
    are exactly those numbered from 1 up to [nextOperationId - 1]. *)
Lemma requestBrowserLaunch_queued u prio now s i s' :
  requestBrowserLaunch u prio now s = (Queued i, s') →
  i = nextOperationId s ∧ nextOperationId s' = (i + 1)%N ∧ i ∈ queueIds s'.
Proof.
  unfold requestBrowserLaunch.
  destruct (_ <=? _).
  - destruct (_ <=? _); [done|]. simpl. intros [= <- <-].
    split; [done|]. split; [done|].
    unfold queueIds. simpl.
    rewrite js_sort_Permutation, fmap_app, elem_of_app. right. simpl. left.
  - by destruct (match truthy u with Some _ => _ | None => _ end).
Qed.

(** C2. Along every sequence of [requestBrowserLaunch] and
    [releaseBrowser] calls (with the queue reprocessing a release triggers,
    and with timers firing and the queue being cleared in between),
    [activeBrowsers] never exceeds the configured [maxConcurrentBrowsers]
    and never becomes negative.  The limit is a count, hence not negative:
    below zero no counter could satisfy both bounds. *)
Theorem C2_activeBrowsers_within_limit cfg evs :
  0 ≤ maxConcurrentBrowsers cfg →
  0 ≤ activeBrowsers (run evs (init cfg)) ≤ maxConcurrentBrowsers cfg.
Proof.
  intros Hmax.
  destruct (reachable_Inv cfg evs) as [_ [Hact _] _ _].
  rewrite run_config in Hact. simpl in Hact. lia.
Qed.

(** C7. The queue never holds more than [maxQueueSize] requests; when the
    capacity is exhausted and the queue holds [maxQueueSize] entries,
    [requestBrowserLaunch] throws the queue-full error and leaves the
    state, hence the queue, as it was. *)
Theorem C7_queue_bounded cfg evs :
  0 ≤ maxQueueSize cfg →
  let s := run evs (init cfg) in
  Z.of_nat (length (queue s)) ≤ maxQueueSize cfg ∧
  ∀ u prio now,
    maxConcurrentBrowsers cfg ≤ activeBrowsers s →
    Z.of_nat (length (queue s)) = maxQueueSize cfg →
    requestBrowserLaunch u prio now s = (Threw CONCURRENT_LIMIT_REACHED, s).
Proof.
  intros Hmax s.
  destruct (reachable_Inv cfg evs) as [Hl _ _ _].
  pose proof (ledger_length _ _ _ _ _ Hl) as Hlen. fold s in Hlen.
  assert (config s = cfg) as Hcfg by apply run_config.
  rewrite Hcfg in Hlen. split; [lia|].
  intros u prio now Hfull Hqfull. unfold requestBrowserLaunch.
  rewrite Hcfg.
  destruct (Z.leb_spec (maxConcurrentBrowsers cfg) (activeBrowsers s)); [|lia].
  by destruct (Z.leb_spec (maxQueueSize cfg) (Z.of_nat (length (queue s))));
    [|lia].
Qed.

(** C4. Every request that was enqueued (they are numbered from 1 up to
    [nextOperationId - 1]) is in one of two situations at any time.  Either
    it is still waiting: it is in the queue, its timer is armed, no outcome
    was delivered to it, and when its timer fires it receives the outcome
    [TimedOut] and leaves the queue.  Or it is settled: exactly one
    outcome (granted, per-user limit, queue cleared or timed out) was
    delivered to it, it is out of the queue and its timer is disarmed. *)
Theorem C4_queued_request_single_outcome cfg evs i :
  let s := run evs (init cfg) in
  (1 ≤ i < nextOperationId s)%N →
  (i ∈ queueIds s ∧ i ∈ timers s ∧ outcomesOf i s = [] ∧
   outcomesOf i (step s (TimerFires i)) = [TimedOut] ∧
   i ∉ queueIds (step s (TimerFires i)))
  ∨
  ((i ∉ queueIds s) ∧ (i ∉ timers s) ∧ ∃ o, outcomesOf i s = [o]).
Proof.
  intros s Hi.
  pose proof (reachable_Inv cfg evs) as HI. fold s in HI.
  destruct HI as [Hl Hc Hp Hsat].
  pose proof (ledger_timers _ _ _ _ _ Hl i) as Htm.
  destruct (ledger_once _ _ _ _ _ Hl i Hi) as [[Hin Hnone]|[Hout Hone]].
  - left. split; [done|]. split; [by apply Htm|]. split; [done|].
    assert (i ∈ timers s) as Harmed by by apply Htm.
    simpl. rewrite (decide_True _ _ Harmed).
    unfold timeoutCallback, removeFromQueue, queueIds. simpl.
    rewrite (decide_True _ _ Hin). simpl. split.
    + change (outcomesIn i ((i, TimedOut) :: settled s) = [TimedOut]).
      rewrite outcomesIn_cons_eq. by rewrite Hnone.
    + rewrite spliceFirst_ids by apply Hl. tauto.
  - right. split; [done|]. split; [|done]. by rewrite Htm.
Qed.

(** C5. When [releaseBrowser] runs on a queue of waiting requests, a
    request it grants is the only one it grants, passes the per-user test,
    leaves the queue, and is served before every other waiting request
    that passes the test: it has the higher priority, or the same priority
    and the earlier time stamp, or the same priority and time stamp and
    was enqueued first.  With a positive capacity, a waiting request that
    passes the test guarantees that the release grants one. *)
Theorem C5_release_grants_first_in_service_order cfg evs u :
  let s := run evs (init cfg) in
  let s' := releaseBrowser u s in
  let eligible op :=
    limited cfg (sessionsByUser (releaseCounters u s)) op = false in
  (∀ g, g ∈ grantedAmong (queue s) (settled s') →
     grantedAmong (queue s) (settled s') = [g] ∧
     eligible g ∧ (g ∉ queue s') ∧
     ∀ o, o ∈ queue s → eligible o → o ≠ g → servedBefore g o)
  ∧
  (1 ≤ maxConcurrentBrowsers cfg →
   (∃ o, o ∈ queue s ∧ eligible o) →
   grantedAmong (queue s) (settled s') ≠ []).
Proof.
  intros s s' eligible.
  pose proof (reachable_Inv cfg evs) as HI. fold s in HI.
  destruct HI as [Hl [Hact _] Hp Hsat].
  assert (config s = cfg) as Hcfg by apply run_config.
  rewrite Hcfg in *.
  (* no queued operation has an outcome before the release *)
  assert (Hold : ∀ op o, op ∈ queue s → (id op, o) ∉ settled s).
  { intros op o Hop Hin.
    assert (id op ∈ id <$> queue s) as Hid by by apply list_elem_of_fmap_2.
    pose proof (ledger_bound _ _ _ _ _ Hl _ Hid) as Hb.
    destruct (ledger_once _ _ _ _ _ Hl _ Hb) as [[_ Hnone]|[? _]]; [|done].
    apply outcomesIn_elem in Hin. rewrite Hnone in Hin.
    by apply elem_of_nil in Hin. }
  set (s1 := releaseCounters u s).
  destruct (releaseCounters_frame u s)
    as (Hc1 & Hq1 & _ & _ & Hs1 & Hp1 & Ha1).
  fold s1 in Hc1, Hq1, Hs1, Hp1, Ha1.
  destruct (decide (queue s = [])) as [Hempty|Hne].
  { rewrite Hempty. split.
    - intros g Hg. by apply elem_of_nil in Hg.
    - intros _ (o & Ho & _). by apply elem_of_nil in Ho. }
  specialize (Hsat Hne).
  assert (s' = set_processing false
                 (processQueue_loop (queue s) (set_processing true s1))) as Hs'.
  { unfold s'. rewrite releaseBrowser_unfold. unfold processQueue. fold s1.
    rewrite Hp1, Hp, Hq1. simpl. rewrite bool_decide_false by done.
    by rewrite Hq1. }
  set (s2 := set_processing true s1) in Hs'.
  assert (queue s2 = queue s) as Hq2 by done.
  destruct (decide (activeBrowsers s2 + 1 = maxConcurrentBrowsers (config s2)))
    as [Hslot|Hnoslot].
  - pose proof (processQueue_loop_one_slot (queue s) s2 Hq2 Hslot) as Hloop.
    cbn zeta in Hloop.
    change (config s2) with (config s1) in Hloop. rewrite Hc1, Hcfg in Hloop.
    change (sessionsByUser s2) with (sessionsByUser s1) in Hloop.
    change (settled s2) with (settled s1) in Hloop. rewrite Hs1 in Hloop.
    pose proof (firstEligible_spec cfg (sessionsByUser s1) (queue s)) as Hsplit.
    destruct (firstEligible cfg (sessionsByUser s1) (queue s))
      as [pre [[g0 post]|]].
    + destruct Hloop as [Hlog Hpost]. destruct Hsplit as (Hpre & Hq & Hg0).
      assert (settled s' = (id g0, Granted) :: rejections pre ++ settled s)
        as Hlog' by by rewrite Hs'.
      assert (queue s' = post) as Hpost' by by rewrite Hs'.
      pose proof (ledger_nodup _ _ _ _ _ Hl) as Hnd.
      pose proof (ledger_sorted _ _ _ _ _ Hl) as Hsorted.
      assert (g0 ∈ queue s) as Hg0in.
      { rewrite Hq, elem_of_app. right. left. }
      assert (Hiff : ∀ op, op ∈ queue s →
                (id op, Granted) ∈ settled s' ↔ op = g0).
      { intros op Hop. rewrite Hlog', elem_of_cons, elem_of_app. split.
        - intros [[= Hid]|[Hrej|Hlogged]].
          + by apply (NoDup_ids_inj (queue s)).
          + by apply rejections_not_granted in Hrej.
          + by apply Hold in Hlogged.
        - intros ->. by left. }
      assert (grantedAmong (queue s) (settled s') = [g0]) as Hgranted.
      { unfold grantedAmong.
        rewrite Hq in Hnd, Hiff |- *.
        rewrite fmap_app, fmap_cons in Hnd.
        apply NoDup_app in Hnd as (_ & Hdisj & Hnd).
        apply NoDup_cons in Hnd as [Hg0post _].
        rewrite filter_app, filter_cons_True
          by (apply Hiff; [rewrite elem_of_app; right; left|done]).
        assert (filter (λ op, (id op, Granted) ∈ settled s') pre = []) as ->.
        { apply filter_none, Forall_forall. intros o Ho Hin.
          apply Hiff in Hin; [|rewrite elem_of_app; by left]. subst o.
          apply (Hdisj (id g0)); [by apply list_elem_of_fmap_2|left]. }
        assert (filter (λ op, (id op, Granted) ∈ settled s') post = []) as ->.
        { apply filter_none, Forall_forall. intros o Ho Hin.
          apply Hiff in Hin; [|rewrite elem_of_app; right; by right]. subst o.
          apply Hg0post. by apply list_elem_of_fmap_2. }
        done. }
      split; [|by rewrite Hgranted].
      intros g Hg. rewrite Hgranted in Hg |- *.
      apply list_elem_of_singleton in Hg as ->.
      split; [done|]. split; [done|]. split.
      * rewrite Hpost'. intros Hin.
        rewrite Hq, fmap_app, fmap_cons in Hnd.
        apply NoDup_app in Hnd as (_ & _ & Hnd).
        apply NoDup_cons in Hnd as [Hg0post _].
        apply Hg0post. by apply list_elem_of_fmap_2.
      * intros o Ho Helig Hog0.
        rewrite Hq in Ho, Hsorted.
        apply StronglySorted_app_1_r in Hsorted.
        apply StronglySorted_inv in Hsorted as [_ Hafter].
        apply elem_of_app in Ho as [Ho|Ho].
        { rewrite Forall_forall in Hpre. specialize (Hpre _ Ho).
          unfold eligible in Helig. fold s1 in Helig. congruence. }
        apply elem_of_cons in Ho as [->|Ho]; [done|].
        rewrite Forall_forall in Hafter. by apply Hafter.
    + destruct Hloop as [Hlog _]. destruct Hsplit as (Hpre & Hq).
      assert (settled s' = rejections pre ++ settled s) as Hlog'
        by by rewrite Hs'.
      assert (grantedAmong (queue s) (settled s') = []) as Hgranted.
      { unfold grantedAmong.
        apply filter_none, Forall_forall. intros o Ho.
        rewrite Hlog', elem_of_app. intros [Hrej|Hlogged].
        - by apply rejections_not_granted in Hrej.
        - by apply Hold in Hlogged. }
      rewrite Hgranted. split.
      * intros g Hg. by apply elem_of_nil in Hg.
      * intros _ (o & Ho & Helig). rewrite Hq in Ho.
        rewrite Forall_forall in Hpre. specialize (Hpre _ Ho).
        unfold eligible in Helig. fold s1 in Helig. congruence.
  - (* no free slot after the release: the loop does nothing *)
    change (activeBrowsers s2) with (activeBrowsers s1) in Hnoslot.
    change (config s2) with (config s1) in Hnoslot.
    rewrite Hc1, Hcfg, Ha1 in Hnoslot.
    assert (maxConcurrentBrowsers cfg ≤ activeBrowsers s1) as Hfull
      by (rewrite Ha1; lia).
    rewrite processQueue_loop_full in Hs'
      by (change (config s2) with (config s1);
          change (activeBrowsers s2) with (activeBrowsers s1);
          by rewrite Hc1, Hcfg).
    assert (settled s' = settled s) as Hlog' by by rewrite Hs'.
    assert (grantedAmong (queue s) (settled s') = []) as Hgranted.
    { unfold grantedAmong.
      apply filter_none, Forall_forall. intros o Ho.
      rewrite Hlog'. by apply Hold. }
    rewrite Hgranted. split.
    + intros g Hg. by apply elem_of_nil in Hg.
    + intros Hpos _. lia.
Qed.

(** ** First in, first out *)

Lemma processQueue_queue_sub s op : op ∈ queue (processQueue s) → op ∈ queue s.
Proof.
  unfold processQueue. destruct (_ || _); [done|]. simpl.
  revert op.
  apply (processQueue_loop_preserves
           (λ s', ∀ op, op ∈ queue s' → op ∈ queue s)); [|done..].
  intros op0 rest s' Hq _ Hsub op Hop. apply Hsub.
  destruct (processOne_frame op0 rest s') as (_ & Hrest & _).
  rewrite Hrest in Hop. rewrite Hq. by right.
Qed.

Lemma spliceFirst_sub i q op : op ∈ spliceFirst i q → op ∈ q.
Proof.
  induction q as [|x q IH]; simpl; [done|].
  case_decide; [by right|].
  rewrite !elem_of_cons. intros [->|?]; auto.
Qed.

(** An event other than an enqueueing request only removes operations. *)
Lemma step_queue_sub s e op :
  op ∈ queue (step s e) →
  op ∈ queue s ∨
  ∃ u prio now, e = RequestLaunch u prio now ∧
    op = mkOp (nextOperationId s) browser_launch u (default 0 prio) now.
Proof.
  destruct e as [u prio now|u|i|]; simpl.
  - unfold requestBrowserLaunch.
    destruct (_ <=? _).
    + destruct (_ <=? _); simpl; [by left|].
      rewrite js_sort_Permutation, elem_of_app, list_elem_of_singleton.
      intros [?| ->]; [by left|right]. by eexists _, _, _.
    + destruct (match truthy u with Some _ => _ | None => _ end); simpl;
        [by left|].
      destruct (grant_frame u s) as (_ & -> & _). by left.
  - rewrite releaseBrowser_unfold. intros Hop%processQueue_queue_sub.
    destruct (releaseCounters_frame u s) as (_ & Hq & _).
    rewrite Hq in Hop. by left.
  - case_decide; [|by left].
    unfold timeoutCallback, removeFromQueue, queueIds. simpl.
    case_decide; simpl; [|by left].
    intros Hop%spliceFirst_sub. by left.
  - intros Hop. by apply elem_of_nil in Hop.
Qed.

Lemma reachable_stampedInOrder cfg evs :
  StronglySorted Z.le (requestTimes evs) →
  stampedInOrder (requestTimes evs) (queue (run evs (init cfg))).
Proof.
  induction evs as [|e evs IH] using rev_ind; intros Hsorted.
  { split.
    - intros op Hin. by apply elem_of_nil in Hin.
    - intros a b Hin. by apply elem_of_nil in Hin. }
  unfold requestTimes in *. rewrite omap_app in Hsorted |- *.
  apply StronglySorted_app in Hsorted as (Hlast & Hsorted & _).
  destruct (IH Hsorted) as [Hstamp Horder].
  rewrite run_snoc. set (s := run evs (init cfg)) in *.
  pose proof (reachable_Inv cfg evs) as [Hl _ _ _]. fold s in Hl.
  split.
  - intros op Hop. rewrite elem_of_app.
    apply step_queue_sub in Hop as [Hop|(u & prio & now & -> & ->)].
    + left. by apply Hstamp.
    + right. simpl. left.
  - intros a b Ha Hb Hab.
    apply step_queue_sub in Ha as [Ha|(u & prio & now & He & ->)];
      apply step_queue_sub in Hb as [Hb|(u' & prio' & now' & He' & ->)].
    + by apply Horder.
    + subst e. simpl. apply Hlast; [by apply Hstamp|]. simpl. left.
    + assert (id b ∈ id <$> queue s) as Hid by by apply list_elem_of_fmap_2.
      apply (ledger_bound _ _ _ _ _ Hl) in Hid. simpl in Hab. lia.
    + simpl in Hab. lia.
Qed.

(** When the clock read by [enqueue] never runs backwards, waiting requests
    of equal priority are served in the order in which they were enqueued:
    if [a] is served before [b], then [a] was enqueued before [b]. *)
Lemma equal_priority_served_in_enqueue_order cfg evs a b :
  StronglySorted Z.le (requestTimes evs) →
  let s := run evs (init cfg) in
  a ∈ queue s → b ∈ queue s →
  priority a = priority b → servedBefore a b → (id a < id b)%N.
Proof.
  intros Hclock s Ha Hb Hprio Hserved.
  destruct (reachable_stampedInOrder cfg evs Hclock) as [_ Horder].
  fold s in Horder.
  pose proof (reachable_Inv cfg evs) as [Hl _ _ _]. fold s in Hl.
  destruct Hserved as [?|(_ & [Hlt|[_ ?]])]; [lia| |done].
  destruct (N.lt_trichotomy (id a) (id b)) as [?|[Heq|Hgt]]; [done| |].
  - apply (NoDup_ids_inj (queue s)) in Heq; [|apply Hl|done..].
    subst b. lia.
  - specialize (Horder b a Hb Ha Hgt). lia.
Qed.

(** ** Concrete runs *)

Lemma C2_witness :
  0 ≤ activeBrowsers (run (evsWaiting ++ [Release None]) (init cfgSingle))
    ≤ maxConcurrentBrowsers cfgSingle.
Proof.
  apply (C2_activeBrowsers_within_limit cfgSingle (evsWaiting ++ [Release None])).
  simpl. lia.
Defined.

Lemma C7_witness :
  let s := run [RequestLaunch None None 0] (init cfgNoQueue) in
  Z.of_nat (length (queue s)) ≤ maxQueueSize cfgNoQueue ∧
  requestBrowserLaunch (Some "u2") None 1 s = (Threw CONCURRENT_LIMIT_REACHED, s).
Proof.
  intros s.
  assert (0 ≤ maxQueueSize cfgNoQueue) as Hmax by (simpl; lia).
  destruct (C7_queue_bounded cfgNoQueue [RequestLaunch None None 0] Hmax)
    as [Hlen Hfull].
  split; [exact Hlen|].
  apply Hfull; vm_compute; [discriminate|reflexivity].
Defined.

Lemma C4_witness :
  let s := run evsWaiting (init cfgSingle) in
  let i := 2%N in
  (i ∈ queueIds s ∧ i ∈ timers s ∧ outcomesOf i s = [] ∧
   outcomesOf i (step s (TimerFires i)) = [TimedOut] ∧
   i ∉ queueIds (step s (TimerFires i)))
  ∨
  ((i ∉ queueIds s) ∧ (i ∉ timers s) ∧ ∃ o, outcomesOf i s = [o]).
Proof.
  apply (C4_queued_request_single_outcome cfgSingle evsWaiting 2%N).
  vm_compute. split; [discriminate|reflexivity].
Defined.

Lemma C5_witness :
  let s := run evsWaiting (init cfgSingle) in
  let s' := releaseBrowser None s in
  let c := mkOp 2 browser_launch (Some "c") 5 2 in
  let eligible op :=
    limited cfgSingle (sessionsByUser (releaseCounters None s)) op = false in
  (grantedAmong (queue s) (settled s') = [c] ∧
   eligible c ∧ (c ∉ queue s') ∧
   ∀ o, o ∈ queue s → eligible o → o ≠ c → servedBefore c o)
  ∧ grantedAmong (queue s) (settled s') ≠ [].
Proof.
  intros s s' c eligible.
  destruct (C5_release_grants_first_in_service_order cfgSingle evsWaiting None)
    as [Hfirst Hsome].
  split.
  - apply Hfirst. vm_compute. constructor.
  - apply Hsome; [simpl; lia|].
    exists c. split; [|reflexivity].
    vm_compute. constructor.
Defined.

(** ** The per-user limit *)

(** With a limit of at least one session per user, every per-user count
    stays within the limit in every state the governor reaches, so also
    right after each grant. *)
Lemma per_user_count_within_positive_limit cfg evs u c :
  1 ≤ maxSessionsPerUser cfg →
  sessionsByUser (run evs (init cfg)) !! u = Some c →
  1 ≤ c ≤ maxSessionsPerUser cfg.
Proof.
  intros Hpos Hu.
  destruct (reachable_Inv cfg evs) as [_ [_ Husers] _ _].
  specialize (Husers _ _ Hu). rewrite run_config in Husers. simpl in Husers.
  lia.
Qed.

(** C3. With [maxSessionsPerUser = 0] the immediate path of
    [requestBrowserLaunch] grants the first request of user u1: the user
    has no entry in [sessionsByUser], [undefined >= 0] is false, and the
    count after the grant is 1, above the limit 0. *)
Example C3_immediate_grant_exceeds_zero_limit :
  let r := requestBrowserLaunch (Some "u1") None 0 (init cfgNoUserSessions) in
  r.1 = Launched ∧
  sessionsByUser r.2 !! "u1" = Some 1 ∧
  maxSessionsPerUser (config r.2) = 0.
Proof. by vm_compute. Qed.

(** The queue path applies the same limit with [get(userId) || 0] and
    rejects that user. *)
Example queued_request_rejected_at_zero_limit :
  let cfg := mkResourceConfig 1 0 10 3600000 300000 50 None false 300000 in
  let s := run [ RequestLaunch None None 0;
                 RequestLaunch (Some "u1") None 1;
                 Release None ] (init cfg) in
  outcomesOf 1 s = [UserLimitReached] ∧ sessionsByUser s !! "u1" = None.
Proof. by vm_compute. Qed.

End ResourceManagerClaims.

(* ===================================================================== *)
(** * ResourceManager: further properties *)
(* ===================================================================== *)

Module ResourceManagerExtras.
Import ResourceManager ResourceManagerSpec ResourceManagerOrder.
Import ResourceManagerInvariants ResourceManagerReports.

Lemma reachable cfg evs : Inv (run evs (init cfg)).
Proof. apply run_Inv, Inv_init. Qed.

(** X1. As long as the configuration is the one the governor was
    constructed with ([updateConfig] is not called), along every run of
    launch requests, releases, timeouts and [clearQueue]: while requests
    are waiting no slot is free, and a new request is never granted ahead
    of them: it is enqueued under the next identifier or refused because
    the queue is full. *)
Theorem X1_no_grant_while_requests_wait cfg evs u prio now :
  let s := run evs (init cfg) in
  queue s ≠ [] →
  maxConcurrentBrowsers cfg ≤ activeBrowsers s ∧
  ((requestBrowserLaunch u prio now s).1 = Queued (nextOperationId s) ∨
   requestBrowserLaunch u prio now s = (Threw CONCURRENT_LIMIT_REACHED, s)).
Proof.
  intros s Hne.
  destruct (reachable cfg evs) as [_ _ _ Hsat]. fold s in Hsat.
  specialize (Hsat Hne).
  assert (config s = cfg) as Hcfg by apply run_config.
  rewrite Hcfg in Hsat. split; [done|].
  unfold requestBrowserLaunch. rewrite Hcfg.
  destruct (Z.leb_spec (maxConcurrentBrowsers cfg) (activeBrowsers s)); [|lia].
  destruct (_ <=? _); [by right|]. by left.
Qed.

Lemma X1_witness :
  let s := run evsWaiting (init cfgSingle) in
  maxConcurrentBrowsers cfgSingle ≤ activeBrowsers s ∧
  ((requestBrowserLaunch (Some "e") (Some 9) 3 s).1 = Queued (nextOperationId s) ∨
   requestBrowserLaunch (Some "e") (Some 9) 3 s = (Threw CONCURRENT_LIMIT_REACHED, s)).
Proof.
  apply (X1_no_grant_while_requests_wait cfgSingle evsWaiting (Some "e") (Some 9) 3).
  vm_compute. discriminate.
Defined.

Lemma State_eq s1 s2 :
  config s1 = config s2 → activeBrowsers s1 = activeBrowsers s2 →
  activeSessions s1 = activeSessions s2 →
  sessionsByUser s1 = sessionsByUser s2 → queue s1 = queue s2 →
  nextOperationId s1 = nextOperationId s2 → processing s1 = processing s2 →
  timers s1 = timers s2 → settled s1 = settled s2 → s1 = s2.
Proof. destruct s1, s2. simpl. by intros -> -> -> -> -> -> -> -> ->. Qed.

(** X2. As long as the configuration is the one the governor was
    constructed with ([updateConfig] is not called), in every state that
    launch requests, releases, timeouts and [clearQueue] lead to: a
    launch that is granted at once, followed by the release for the same
    user, gives back the state from before the request: the browser
    count, the per-user map (the user's entry is removed again if the
    grant created it) and everything else. *)
Theorem X2_release_undoes_granted_launch cfg evs u prio now s' :
  let s := run evs (init cfg) in
  requestBrowserLaunch u prio now s = (Launched, s') →
  releaseBrowser u s' = s.
Proof.
  intros s Hreq.
  destruct (reachable cfg evs) as [_ [Hact Husers] Hp Hsat].
  fold s in Hact, Husers, Hp, Hsat.
  unfold requestBrowserLaunch in Hreq.
  destruct (Z.leb_spec (maxConcurrentBrowsers (config s)) (activeBrowsers s))
    as [Hfull|Hfree].
  { by destruct (_ <=? _). }
  destruct (match truthy u with Some _ => _ | None => _ end); [done|].
  injection Hreq as <-.
  assert (queue s = []) as Hempty.
  { destruct (queue s); [done|]. specialize (Hsat ltac:(done)). lia. }
  rewrite releaseBrowser_unfold. unfold processQueue.
  destruct (releaseCounters_frame u (grant u s))
    as (Hc & Hq & Hn & Ht & Hs & Hpr & Ha).
  destruct (grant_frame u s) as (Hc' & Hq' & Hn' & Ht' & Hs' & Hpr' & Ha').
  rewrite Hq, Hq', Hempty, bool_decide_true, orb_true_r by done.
  apply State_eq; try congruence.
  - rewrite Ha, Ha'. lia.
  - unfold releaseCounters, grant.
    destruct (truthy u); simpl; [by destruct (_ <? _)|done].
  - unfold releaseCounters, grant, userSessions.
    destruct (truthy u) as [v|]; simpl; [|done].
    rewrite lookup_insert_eq. simpl.
    destruct (sessionsByUser s !! v) as [c|] eqn:Hv; simpl.
    + specialize (Husers _ _ Hv).
      destruct (Z.ltb_spec 1 (c + 1)); [|lia]. simpl.
      rewrite insert_insert_eq.
      replace (c + 1 - 1) with c by lia. by apply insert_id.
    + simpl. by rewrite delete_insert_eq, delete_id.
Qed.

Lemma X2_witness :
  let s := run [RequestLaunch (Some "a") None 0] (init defaultConfig) in
  releaseBrowser (Some "b") (requestBrowserLaunch (Some "b") None 1 s).2 = s.
Proof.
  intros s.
  apply (X2_release_undoes_granted_launch defaultConfig
           [RequestLaunch (Some "a") None 0] (Some "b") None 1).
  reflexivity.
Defined.

(** ** Clearing the queue *)

Lemma clearFold_settled_mono q : ∀ s x,
  x ∈ settled s → x ∈ settled (foldl clearOne s q).
Proof.
  induction q as [|op q IH]; intros s x Hx; [done|].
  simpl. apply IH. simpl. by right.
Qed.

Lemma clearFold_settled_cleared q : ∀ s op,
  op ∈ q → (id op, QueueCleared) ∈ settled (foldl clearOne s q).
Proof.
  induction q as [|x q IH]; intros s op Hop; [by apply elem_of_nil in Hop|].
  simpl. apply elem_of_cons in Hop as [->|Hop]; [|by apply IH].
  apply clearFold_settled_mono. simpl. by left.
Qed.

Lemma clearFold_settled_other q : ∀ s i,
  i ∉ (id <$> q) →
  outcomesIn i (settled (foldl clearOne s q)) = outcomesIn i (settled s).
Proof.
  induction q as [|x q IH]; intros s i Hi; [done|].
  rewrite fmap_cons, not_elem_of_cons in Hi. destruct Hi as [Hne Hi].
  simpl. rewrite IH by done. simpl. by rewrite outcomesIn_cons_ne.
Qed.

(** X3. In every state the governor reaches, [clearQueue] returns the
    number of waiting requests, empties the queue, leaves no timer armed
    and does not touch the counters; each request that was waiting has
    received the one outcome [QueueCleared], and the outcome of every
    other request is what it was. *)
Theorem X3_clearQueue_settles_every_waiting_request cfg evs :
  let s := run evs (init cfg) in
  let r := clearQueue s in
  r.1 = length (queue s) ∧
  queue r.2 = [] ∧
  timers r.2 = ∅ ∧
  activeBrowsers r.2 = activeBrowsers s ∧
  sessionsByUser r.2 = sessionsByUser s ∧
  ∀ i, outcomesOf i r.2 =
         if decide (i ∈ queueIds s) then [QueueCleared] else outcomesOf i s.
Proof.
  intros s r.
  pose proof (reachable cfg evs) as HI. fold s in HI.
  pose proof (clearQueue_Inv s HI) as [Hl' _ _ _]. fold r in Hl'.
  destruct HI as [Hl _ _ _].
  assert (r.2 = set_queue [] (foldl clearOne s (queue s))) as Hr by done.
  destruct (clearQueue_fold_frame (queue s) s) as (_ & Hact & Hus & Hnx & _).
  split; [done|]. split; [done|]. split; [|split; [|split]].
  - apply set_eq. intros i.
    rewrite (ledger_timers _ _ _ _ _ Hl' i). rewrite Hr. simpl.
    by rewrite elem_of_nil, elem_of_empty.
  - by rewrite Hr.
  - by rewrite Hr.
  - intros i. change (outcomesOf i r.2) with (outcomesIn i (settled r.2)).
    rewrite Hr. simpl. case_decide as Hi.
    + pose proof (ledger_bound _ _ _ _ _ Hl i Hi) as Hb.
      rewrite <- Hnx in Hb.
      destruct (ledger_once _ _ _ _ _ Hl' i) as [[Hin _]|[_ [o Ho]]].
      { by rewrite Hr. }
      { rewrite Hr in Hin. simpl in Hin. by apply elem_of_nil in Hin. }
      rewrite Hr in Ho. simpl in Ho. rewrite Ho. f_equal.
      apply list_elem_of_fmap in Hi as (op & -> & Hop).
      pose proof (clearFold_settled_cleared (queue s) s op Hop) as Hin.
      apply outcomesIn_elem in Hin. rewrite Ho in Hin.
      by apply list_elem_of_singleton in Hin.
    + by apply clearFold_settled_other.
Qed.

(** ** The queue status *)

Lemma truthy_not_empty x v : truthy x = Some v → v ≠ "".
Proof.
  unfold truthy. destruct x as [t|]; [|done].
  case_decide; [done|]. by intros [= <-].
Qed.

Global Instance operationIdString_inj : Inj (=) (=) operationIdString.
Proof.
  intros n m Heq. unfold operationIdString in Heq.
  by apply (inj (String.app "op-")), (inj pretty) in Heq.
Qed.

(** X4. In every state the governor reaches, [getQueueStatus] lists each
    waiting request once, under an identifier string of its own, in the
    order of service: higher priority first and, among equal priorities,
    the longer wait first; the list is as long as the [queuedRequests]
    figure of [getResourceUsage]. *)
Theorem X4_queue_status_in_service_order cfg evs now heapMB :
  let s := run evs (init cfg) in
  let status := getQueueStatus now s in
  StronglySorted listedBefore status ∧
  NoDup (statusId <$> status) ∧
  length status = queuedRequests (getResourceUsage heapMB s).
Proof.
  intros s status. subst status. unfold getQueueStatus.
  destruct (reachable cfg evs) as [Hl _ _ _]. fold s in Hl.
  split; [|split].
  - pose proof (ledger_sorted _ _ _ _ _ Hl) as Hsorted.
    induction Hsorted as [|op q Hq IH Hop]; simpl; constructor; [done|].
    apply Forall_fmap. eapply Forall_impl; [exact Hop|].
    intros o. unfold servedBefore, listedBefore. simpl. lia.
  - rewrite <- list_fmap_compose.
    change (NoDup ((operationIdString ∘ id) <$> queue s)).
    rewrite list_fmap_compose. apply NoDup_fmap_2; [apply _|apply Hl].
  - simpl. by rewrite length_fmap.
Qed.

(** ** The per-user map *)

Lemma grant_no_empty_user u s :
  sessionsByUser s !! "" = None → sessionsByUser (grant u s) !! "" = None.
Proof.
  intros Hs. rewrite grant_users.
  destruct (truthy u) as [v|] eqn:Hu; [|done].
  rewrite lookup_insert_ne; [done|]. by eapply truthy_not_empty.
Qed.

Lemma releaseCounters_no_empty_user u s :
  sessionsByUser s !! "" = None →
  sessionsByUser (releaseCounters u s) !! "" = None.
Proof.
  intros Hs. unfold releaseCounters.
  destruct (truthy u) as [v|] eqn:Hu; [|done]. simpl.
  destruct (1 <? _); simpl.
  - rewrite lookup_insert_ne; [done|]. by eapply truthy_not_empty.
  - rewrite lookup_delete. by case_decide.
Qed.

Lemma step_no_empty_user s e :
  sessionsByUser s !! "" = None → sessionsByUser (step s e) !! "" = None.
Proof.
  intros Hs. destruct e as [u prio now|u|i|]; simpl.
  - unfold requestBrowserLaunch.
    repeat (destruct (_ <=? _); simpl; try done).
    destruct (match truthy u with Some _ => _ | None => _ end); simpl; [done|].
    by apply grant_no_empty_user.
  - rewrite releaseBrowser_unfold. unfold processQueue.
    pose proof (releaseCounters_no_empty_user u s Hs) as Hs1.
    destruct (_ || _); [done|]. simpl.
    apply (processQueue_loop_preserves (λ s', sessionsByUser s' !! "" = None));
      [|done..].
    intros op rest s' _ _ Hs'. unfold processOne.
    destruct (limited _ _ _); simpl; [done|].
    by apply (grant_no_empty_user _ (clearTimeout (id op) (set_queue rest s'))).
  - case_decide; [|done].
    unfold timeoutCallback, removeFromQueue. simpl. by case_decide.
  - unfold clearQueue. simpl.
    change (foldl _ s (queue s)) with (foldl clearOne s (queue s)).
    by destruct (clearQueue_fold_frame (queue s) s) as (_ & _ & -> & _).
Qed.

(** X5. The per-user map only holds what is in use: in every state the
    governor reaches each count in [sessionsByUser] is at least 1 (an entry
    is deleted when its last session is released) and no entry is kept
    for the empty user identifier, which counts as no user. *)
Theorem X5_per_user_map_has_no_idle_entries cfg evs u c :
  sessionsByUser (run evs (init cfg)) !! u = Some c → 1 ≤ c ∧ u ≠ "".
Proof.
  intros Hu. split.
  - destruct (reachable cfg evs) as [_ [_ Husers] _ _].
    by destruct (Husers _ _ Hu).
  - intros ->. revert c Hu.
    assert (sessionsByUser (run evs (init cfg)) !! "" = None) as ->; [|done].
    induction evs as [|e evs IH] using rev_ind; [done|].
    rewrite run_snoc. by apply step_no_empty_user.
Qed.

Lemma X5_witness :
  let evs := [RequestLaunch (Some "a") None 0; RequestLaunch (Some "a") None 1;
              RequestLaunch (Some "") None 2; Release (Some "a")] in
  sessionsByUser (run evs (init defaultConfig)) !! "a" = Some 1 ∧
  1 ≤ 1 ∧ "a" ≠ "".
Proof.
  intros evs. split; [reflexivity|].
  apply (X5_per_user_map_has_no_idle_entries defaultConfig evs "a" 1).
  reflexivity.
Defined.

End ResourceManagerExtras.

(* ===================================================================== *)
(** * SessionPersistence: a saved record is read back *)
(* ===================================================================== *)

Module SessionPersistenceClaims.
Import SessionPersistence SessionSpec SessionPersistenceSpec.

Section store.
Context `{Platform}.
Variable dir : string.

Lemma writeFile_holds path data fsys fsys' :
  writeFile path data fsys = (inr (), fsys') → holds path data fsys'.
Proof.
  unfold writeFile, holds. case_decide; intros [= <-]; simpl.
  by rewrite lookup_insert_eq.
Qed.



Lemma saveSession_holds r fsys fsys' :
  saveSession dir r fsys = (inr (), fsys') →
  holds (getSessionFilePath dir (persistedId r)) (JSON_stringify r) fsys'.
Proof.
  unfold saveSession. destruct (initialize dir fsys); [done|].
  apply writeFile_holds.
Qed.


Lemma loadSession_holds sessionId data r fsys :
  holds (getSessionFilePath dir sessionId) data fsys →
  JSON_parse data = Some r →
  loadSession dir sessionId fsys = inr (Some r).
Proof.
  intros [Hfile Hok] Hparse. unfold loadSession, readFile.
  rewrite decide_False by done. by rewrite Hfile, Hparse.
Qed.

End store.

(** ** A concrete store *)

Lemma string_length_app (s t : string) :
  String.length (s +:+ t) = (String.length s + String.length t)%nat.
Proof.
  induction s as [|a s IH]; [done|].
  change (S (String.length (s +:+ t)) = S (String.length s + String.length t)).
  by rewrite IH.
Qed.

Lemma string_app_inj_r (s1 s2 t : string) : s1 +:+ t = s2 +:+ t → s1 = s2.
Proof.
  revert s2. induction s1 as [|a s1 IH]; intros [|b s2] Heq; [done| | |].
  - apply (f_equal String.length) in Heq.
    rewrite !string_length_app in Heq. simpl in Heq. lia.
  - apply (f_equal String.length) in Heq.
    rewrite !string_length_app in Heq. simpl in Heq. lia.
  - change (String a (s1 +:+ t) = String b (s2 +:+ t)) in Heq.
    injection Heq as -> Heq. f_equal. by apply IH.
Qed.

Lemma demo_files_distinct dir a b :
  a ≠ b →
  getSessionFilePath (H := Demo.demoPlatform) dir a
    ≠ getSessionFilePath (H := Demo.demoPlatform) dir b.
Proof.
  intros Hne Heq. apply Hne.
  unfold getSessionFilePath in Heq. simpl in Heq. unfold Demo.demoJoin in Heq.
  apply (inj (String.app dir)), (inj (String.app "/")) in Heq.
  by apply string_app_inj_r in Heq.
Qed.



End SessionPersistenceClaims.

(* ===================================================================== *)
(** * SessionManager: what each method does to the process *)
(* ===================================================================== *)

Module SessionManagerFacts.
Import SessionManager SessionSpec.

Lemma truthy_nonempty x s : truthy x = Some s → s ≠ "".
Proof.
  unfold truthy. destruct x as [t|]; [|done].
  case_decide; [done|]. by intros [= <-].
Qed.

Lemma truthy_empty : truthy (Some "") = None.
Proof. done. Qed.

Lemma truthy_Some s : s ≠ "" → truthy (Some s) = Some s.
Proof. intros. unfold truthy. by rewrite decide_False. Qed.

Lemma generated_id_nonempty (n : N) : "session-" +:+ pretty n ≠ "".
Proof. discriminate. Qed.

Section facts.
Context `{Platform}.

Lemma chosenId_nonempty sessionId sm : chosenId sessionId sm ≠ "".
Proof.
  unfold chosenId. destruct (truthy sessionId) eqn:Hs.
  - by eapply truthy_nonempty.
  - apply generated_id_nonempty.
Qed.

Lemma persistSession_frame session snap w :
  sessionManager (persistSession session snap w) = sessionManager w ∧
  resourceManager (persistSession session snap w) = resourceManager w.
Proof. unfold persistSession. by destruct (snapshotCookies snap). Qed.

Lemma createSession_spec sessionId settings engine now w :
  let sm := sessionManager w in
  let r := createSession sessionId settings engine now w in
  resourceManager r.2 = resourceManager w ∧
  defaultSessionId (sessionManager r.2) = defaultSessionId sm ∧
  nextSessionId (sessionManager r.2) = counterAfter sessionId sm ∧
  match r.1 with
  | inr id =>
      id = chosenId sessionId sm ∧
      sessions sm !! id = None ∧
      ∃ session,
        sessions (sessionManager r.2) = <[id := session]> (sessions sm) ∧
        SessionManager.id session = id
  | inl _ =>
      sessions (sessionManager r.2) = sessions sm ∧ disk r.2 = disk w
  end.
Proof.
  intros sm r. subst r. unfold createSession, chosenId, counterAfter. fold sm.
  destruct (truthy sessionId) as [id|]; simpl.
  - case_decide as Hex; simpl; [done|].
    case_decide; simpl; [|done].
    destruct (launchResult engine) as [e|[b p]]; simpl; [done|].
    match goal with
    | |- context [persistSession ?s ?sn ?w0] =>
        destruct (persistSession_frame s sn w0) as [-> ->]
    end. simpl.
    repeat split; try done.
    + by apply eq_None_not_Some.
    + by eexists.
  - case_decide as Hex; simpl; [done|].
    case_decide; simpl; [|done].
    destruct (launchResult engine) as [e|[b p]]; simpl; [done|].
    match goal with
    | |- context [persistSession ?s ?sn ?w0] =>
        destruct (persistSession_frame s sn w0) as [-> ->]
    end. simpl.
    repeat split; try done.
    + by apply eq_None_not_Some.
    + by eexists.
Qed.

Lemma getSession_spec sessionId now w :
  let sm := sessionManager w in
  let id := default (defaultSessionId sm) (truthy sessionId) in
  let r := getSession sessionId now w in
  r.1 = set_lastAccessedAt now <$> sessions sm !! id ∧
  resourceManager r.2 = resourceManager w ∧
  disk r.2 = disk w ∧
  defaultSessionId (sessionManager r.2) = defaultSessionId sm ∧
  nextSessionId (sessionManager r.2) = nextSessionId sm ∧
  ∀ k, sessions (sessionManager r.2) !! k = None ↔ sessions sm !! k = None.
Proof.
  intros sm id r. subst r. unfold getSession. fold sm. fold id.
  destruct (sessions sm !! id) as [session|] eqn:Hid; simpl; [|done].
  repeat split; try done.
  - rewrite lookup_insert. by case_decide.
  - rewrite lookup_insert. case_decide as Hk; [|done].
    rewrite <- Hk, Hid. done.
Qed.

Lemma closeSession_spec sessionId closeFails w :
  let sm := sessionManager w in
  let r := closeSession sessionId closeFails w in
  resourceManager r.2 = resourceManager w ∧
  disk r.2 = disk w ∧
  defaultSessionId (sessionManager r.2) = defaultSessionId sm ∧
  nextSessionId (sessionManager r.2) = nextSessionId sm ∧
  match sessions sm !! sessionId with
  | Some _ =>
      r.1 = inr () ∧
      sessions (sessionManager r.2) = delete sessionId (sessions sm)
  | None =>
      r = (inl (Error ("Session '" +:+ sessionId +:+ "' not found")), w)
  end.
Proof.
  intros sm r. subst r. unfold closeSession. fold sm.
  by destruct (sessions sm !! sessionId).
Qed.

(** ** What no method ever does *)

Lemma preserves_refl w : preserves w w.
Proof. by split. Qed.

Lemma preserves_trans w1 w2 w3 :
  preserves w1 w2 → preserves w2 w3 → preserves w1 w3.
Proof.
  intros (H1 & H1' & H1'') (H2 & H2' & H2'').
  split; [congruence|]. split; [congruence|auto].
Qed.

Lemma createSession_preserves sessionId settings engine now w :
  preserves w (createSession sessionId settings engine now w).2.
Proof.
  destruct (createSession_spec sessionId settings engine now w)
    as (Hrm & Hdef & _ & Hres).
  split; [done|]. split; [done|]. intros Hempty.
  destruct (createSession sessionId settings engine now w).1 as [e|id].
  - destruct Hres as [-> _]. done.
  - destruct Hres as (-> & _ & session & -> & _).
    rewrite lookup_insert_ne; [done|]. apply chosenId_nonempty.
Qed.

Lemma getSession_preserves sessionId now w :
  preserves w (getSession sessionId now w).2.
Proof.
  destruct (getSession_spec sessionId now w) as (_ & Hrm & _ & Hdef & _ & Hdom).
  split; [done|]. split; [done|]. apply Hdom.
Qed.

Lemma delete_preserves id w :
  preserves w (set_sessionManager
                 (set_sessions (delete id (sessions (sessionManager w)))
                               (sessionManager w)) w).
Proof.
  split; [done|]. split; [done|]. simpl. intros Hempty.
  rewrite lookup_delete. by case_decide.
Qed.

Lemma closeSession_preserves sessionId closeFails w :
  preserves w (closeSession sessionId closeFails w).2.
Proof.
  unfold closeSession.
  destruct (sessions (sessionManager w) !! sessionId); simpl.
  - apply delete_preserves.
  - apply preserves_refl.
Qed.

Lemma onDisconnected_preserves id w : preserves w (onDisconnected id w).
Proof. apply delete_preserves. Qed.

Lemma ensureSession_preserves sessionId settings connected e1 e2 now w :
  preserves w (ensureSession sessionId settings connected e1 e2 now w).2.
Proof.
  unfold ensureSession.
  set (id := default (defaultSessionId (sessionManager w)) (truthy sessionId)).
  pose proof (getSession_preserves (Some id) now w) as H1.
  destruct (getSession (Some id) now w) as [found w1]. simpl in H1.
  assert (∃ found' w2,
    match found with
    | Some session => (inr (Some session), w1)
    | None =>
        match createSession (Some id) settings e1 now w1 with
        | (inl e, w) => (inl e, w)
        | (inr _, w) =>
            let '(s, w) := getSession (Some id) now w in (inr s, w)
        end
    end = (found', w2) ∧ preserves w w2) as (found' & w2 & -> & H2).
  { destruct found as [session|]; [by eauto|].
    pose proof (createSession_preserves (Some id) settings e1 now w1) as Hc.
    destruct (createSession (Some id) settings e1 now w1) as [[e|?] wc];
      simpl in Hc.
    - eexists _, _. split; [done|]. by eapply preserves_trans.
    - pose proof (getSession_preserves (Some id) now wc) as Hg.
      destruct (getSession (Some id) now wc) as [sg wg]. simpl in Hg.
      eexists _, _. split; [done|].
      eapply preserves_trans; [|exact Hg]. by eapply preserves_trans. }
  destruct found' as [e|[session|]]; simpl; [done..| |done].
  destruct connected; simpl; [done|].
  pose proof (delete_preserves id w2) as Hd.
  set (w3 := set_sessionManager _ w2) in *.
  pose proof (createSession_preserves (Some id) settings e2 now w3) as Hc.
  destruct (createSession (Some id) settings e2 now w3) as [[e|?] wc];
    simpl in Hc |- *.
  - eapply preserves_trans; [exact H2|]. by eapply preserves_trans.
  - pose proof (getSession_preserves (Some id) now wc) as Hg.
    destruct (getSession (Some id) now wc) as [[sg|] wg]; simpl in Hg |- *;
      (eapply preserves_trans; [exact H2|];
       eapply preserves_trans; [exact Hd|];
       by eapply preserves_trans).
Qed.


Lemma recoverSession_preserves sessionId engine now w :
  preserves w (recoverSession sessionId engine now w).2.
Proof.
  unfold recoverSession.
  destruct (SessionPersistence.loadSession _ _ _) as [e|[data|]];
    [apply preserves_refl| |apply preserves_refl].
  pose proof (createSession_preserves (Some sessionId)
                (Some (persistedSettings data)) (recoveryLaunch engine) now w)
    as Hc.
  destruct (createSession _ _ _ _ _) as [[e|newId] w1]; simpl in Hc; [done|].
  pose proof (getSession_preserves (Some newId) now w1) as Hg.
  destruct (getSession _ _ _) as [[session|] w2]; simpl in Hg.
  - assert (preserves w w2) by by eapply preserves_trans.
    destruct (if decide (_ ∧ _) then _ else _) as [?|?]; [done|].
    destruct (if decide (cookies data ≠ []) then _ else _) as [?|?]; [done|].
    by destruct (evaluateResult engine).
  - by eapply preserves_trans.
Qed.

Lemma recoverNext_world engines now report w data :
  (recoverNext engines now (report, w) data).2 =
    (recoverSession (persistedId data) (engines (persistedId data)) now w).2.
Proof.
  unfold recoverNext.
  destruct (recoverSession _ _ _ _) as [sessionId w1].
  by destruct (truthy sessionId).
Qed.

Lemma recoverAll_fold_preserves engines now l : ∀ report w,
  preserves w (foldl (recoverNext engines now) (report, w) l).2.
Proof.
  induction l as [|data l IH]; intros report w; [apply preserves_refl|].
  cbn [foldl].
  pose proof (recoverNext_world engines now report w data) as Hw.
  destruct (recoverNext engines now (report, w) data) as [report1 w1].
  simpl in Hw. subst w1.
  eapply preserves_trans; [apply recoverSession_preserves|apply IH].
Qed.

Lemma step_preserves w e : preserves w (step w e).
Proof.
  destruct e; simpl.
  - apply createSession_preserves.
  - apply getSession_preserves.
  - apply ensureSession_preserves.
  - apply closeSession_preserves.
  - apply onDisconnected_preserves.
  - apply recoverSession_preserves.
  - apply recoverAll_fold_preserves.
Qed.

Lemma run_preserves evs : ∀ w, preserves w (run evs w).
Proof.
  induction evs as [|e evs IH]; intros w; [apply preserves_refl|].
  simpl. eapply preserves_trans; [apply step_preserves|apply IH].
Qed.
End facts.

End SessionManagerFacts.

(* ===================================================================== *)
(** * SessionManager: the registry properties *)
(* ===================================================================== *)

Module SessionManagerClaims.
Import SessionManager SessionSpec SessionManagerFacts.

(** ** Sessions and the resource governor *)

(** C1, counterexample. The first session of a fresh process is created
    under the identifier session-1 while the governor still counts no
    active browser. *)
Lemma C1_counterexample :
  ¬ admission_per_created_session (H := Demo.demoPlatform).
Proof.
  intros Hclaim.
  specialize (Hclaim None None Demo.launchOk 0 Demo.freshProcess
                     "session-1" _ eq_refl).
  vm_compute in Hclaim. discriminate.
Qed.

(** C1 (amended). No method of the session manager calls the resource
    governor: [createSession] requests no admission, [closeSession] and the
    disconnection handler perform no release, and along every sequence of
    session-manager calls the state of the governor (active browsers,
    per-user counts, queue) stays what it was. *)
Theorem C1_sessions_leave_governor_untouched `{Platform} w :
  (∀ sessionId settings engine now,
     resourceManager (createSession sessionId settings engine now w).2
       = resourceManager w) ∧
  (∀ sessionId closeFails,
     resourceManager (closeSession sessionId closeFails w).2
       = resourceManager w) ∧
  (∀ id, resourceManager (onDisconnected id w) = resourceManager w) ∧
  (∀ evs, resourceManager (run evs w) = resourceManager w).
Proof.
  split; [|split; [|split]].
  - intros. apply createSession_preserves.
  - intros. apply closeSession_preserves.
  - intros. apply onDisconnected_preserves.
  - intros. apply run_preserves.
Qed.

(** ** Closing a session *)

Lemma start_no_empty `{Platform} evs fsys rm :
  sessions (sessionManager (run evs (start fsys rm))) !! "" = None ∧
  defaultSessionId (sessionManager (run evs (start fsys rm))) = "default".
Proof.
  destruct (run_preserves evs (start fsys rm)) as (_ & Hdef & Hempty).
  split; [by apply Hempty|]. by rewrite Hdef.
Qed.

(** C6, counterexample. Session s1 is created, its browser disconnects,
    and then it is closed: the close throws. *)
Lemma C6_counterexample : ¬ close_of_absent_session_returns.
Proof.
  intros Hclaim.
  set (w := run (H := Demo.demoPlatform)
              [CreateSession (Some "s1") None Demo.launchOk 0; Disconnected "s1"]
              Demo.freshProcess).
  specialize (Hclaim "s1" false w eq_refl).
  vm_compute in Hclaim. discriminate.
Qed.

(** C6 (amended). In every state the registry reaches: closing a
    registered identifier returns, and a [getSession] on that identifier
    then reports not-found; closing an identifier that is not registered
    throws the error [Session '<id>' not found] and changes nothing, so
    also after the disconnection handler removed the session; the removal
    by the disconnection handler itself may be repeated without effect. *)
Theorem C6_close_then_get_not_found `{Platform} evs fsys rm sessionId closeFails :
  let w := run evs (start fsys rm) in
  match sessions (sessionManager w) !! sessionId with
  | Some _ =>
      (closeSession sessionId closeFails w).1 = inr () ∧
      ∀ now,
        (getSession (Some sessionId) now (closeSession sessionId closeFails w).2).1
          = None
  | None =>
      closeSession sessionId closeFails w
        = (inl (Error ("Session '" +:+ sessionId +:+ "' not found")), w)
  end ∧
  (closeSession sessionId closeFails (onDisconnected sessionId w)).1
    = inl (Error ("Session '" +:+ sessionId +:+ "' not found")) ∧
  onDisconnected sessionId (onDisconnected sessionId w)
    = onDisconnected sessionId w.
Proof.
  intros w.
  destruct (start_no_empty evs fsys rm) as [Hempty _]. fold w in Hempty.
  split; [|split].
  - destruct (closeSession_spec sessionId closeFails w)
      as (_ & _ & Hdef & _ & Hres).
    destruct (sessions (sessionManager w) !! sessionId) as [session|] eqn:Hs;
      [|done].
    destruct Hres as [Hok Hdel]. split; [done|]. intros now.
    destruct (getSession_spec (Some sessionId) now
                (closeSession sessionId closeFails w).2) as (-> & _).
    assert (sessionId ≠ "") as Hne by (intros ->; congruence).
    rewrite truthy_Some by done. simpl.
    by rewrite Hdel, lookup_delete_eq.
  - unfold closeSession, onDisconnected. simpl.
    by rewrite lookup_delete_eq.
  - unfold onDisconnected. simpl. unfold set_sessionManager, set_sessions. simpl.
    by rewrite delete_delete_eq.
Qed.

(** ** Recovery *)

Section recovery.
Context `{Platform}.




(** ** The empty identifier *)

(** C10. The empty string counts as no identifier.  [getSession] on the
    empty string is [getSession] without argument: it returns the session
    registered under the default identifier, if there is one.
    [createSession] on the empty string is [createSession] without
    identifier: when it returns, the identifier is [session-<n>]
    for the current counter [n], the session is registered under it, the
    counter is incremented and the empty string is still not a
    registered identifier. *)
Theorem C10_empty_identifier_is_no_identifier evs fsys rm settings engine now :
  let w := run evs (start fsys rm) in
  getSession (Some "") now w = getSession None now w ∧
  (getSession (Some "") now w).1
    = set_lastAccessedAt now <$> sessions (sessionManager w) !! "default" ∧
  createSession (Some "") settings engine now w
    = createSession None settings engine now w ∧
  ∀ id, (createSession (Some "") settings engine now w).1 = inr id →
    let w' := (createSession (Some "") settings engine now w).2 in
    id = "session-" +:+ pretty (nextSessionId (sessionManager w)) ∧
    is_Some (sessions (sessionManager w') !! id) ∧
    nextSessionId (sessionManager w') = (nextSessionId (sessionManager w) + 1)%N ∧
    sessions (sessionManager w') !! "" = None.
Proof.
  intros w.
  destruct (start_no_empty evs fsys rm) as [Hempty Hdef].
  fold w in Hempty, Hdef.
  split; [done|]. split; [|split; [done|]].
  - destruct (getSession_spec (Some "") now w) as (-> & _).
    by rewrite truthy_empty, Hdef.
  - intros id Hid w'. subst w'.
    destruct (createSession_spec (Some "") settings engine now w)
      as (_ & _ & Hnext & Hres).
    rewrite Hid in Hres. destruct Hres as (-> & Hfree & session & Hreg & _).
    unfold chosenId, counterAfter in *. rewrite truthy_empty in *.
    split; [done|]. rewrite Hreg. split; [|split; [done|]].
    + rewrite lookup_insert_eq. by eexists.
    + rewrite lookup_insert_ne; [done|]. apply generated_id_nonempty.
Qed.
End recovery.



Lemma C10_witness :
  let w := run (H := Demo.demoPlatform)
             [CreateSession (Some "default") None Demo.launchOk 0]
             Demo.freshProcess in
  let w' := (createSession (H := Demo.demoPlatform)
               (Some "") None Demo.launchOk 1 w).2 in
  is_Some (getSession (Some "") 1 w).1 ∧
  "session-1" = "session-" +:+ pretty (nextSessionId (sessionManager w)) ∧
  is_Some (sessions (sessionManager w') !! "session-1") ∧
  nextSessionId (sessionManager w') = (nextSessionId (sessionManager w) + 1)%N ∧
  sessions (sessionManager w') !! "" = None.
Proof.
  intros w w'.
  destruct (C10_empty_identifier_is_no_identifier (H := Demo.demoPlatform)
              [CreateSession (Some "default") None Demo.launchOk 0]
              Demo.emptyDisk (ResourceManager.init ResourceManager.defaultConfig)
              None Demo.launchOk 1) as (_ & Hget & _ & Hcreate).
  split.
  - unfold w, Demo.freshProcess. rewrite Hget. vm_compute. by eexists.
  - apply (Hcreate "session-1"). reflexivity.
Defined.

End SessionManagerClaims.

(* ===================================================================== *)
(** * SessionPersistence: further properties *)
(* ===================================================================== *)

Module SessionPersistenceExtras.
Import SessionPersistence SessionSpec SessionPersistenceClaims.
Import SessionPersistenceCleanup.

(** ** Strings *)

Lemma string_app_empty_r (s : string) : s +:+ "" = s.
Proof.
  induction s as [|a s IH]; [done|].
  change (String a (s +:+ "") = String a s). by rewrite IH.
Qed.

Lemma substring_zero_length n s : String.substring n 0 s = "".
Proof.
  revert s. induction n as [|n IH]; intros [|a s]; simpl; try done.
Qed.

Lemma substring_app_l (a b : string) :
  String.substring 0 (String.length a) (a +:+ b) = a.
Proof.
  induction a as [|c a IH]; simpl.
  - change ("" +:+ b) with b. by destruct b.
  - change (String c a +:+ b) with (String c (a +:+ b)). simpl. by rewrite IH.
Qed.

Lemma substring_app_r (a b : string) :
  String.substring (String.length a) (String.length b) (a +:+ b) = b.
Proof.
  induction a as [|c a IH]; simpl.
  - change ("" +:+ b) with b.
    induction b as [|d b IHb]; simpl; [done|]. by rewrite IHb.
  - change (String c a +:+ b) with (String c (a +:+ b)). simpl. apply IH.
Qed.

(** A file name made of an identifier and the extension ends with the
    extension. *)
Lemma endsWith_app (a b : string) : endsWith b (a +:+ b) = true.
Proof.
  unfold endsWith. rewrite string_length_app.
  rewrite (proj2 (Nat.leb_le _ _)) by lia. simpl.
  replace (String.length a + String.length b - String.length b)%nat
    with (String.length a) by lia.
  rewrite substring_app_r. by rewrite bool_decide_true.
Qed.

(** Where the first occurrence of the pattern is the end of the text,
    [replace] cuts the text there. *)
Lemma replaceFirst_suffix (a b : string) :
  String.index 0 b (a +:+ b) = Some (String.length a) →
  replaceFirst b "" (a +:+ b) = a.
Proof.
  intros Hindex. unfold replaceFirst. rewrite Hindex.
  rewrite substring_app_l, string_length_app.
  replace (String.length a + String.length b
             - (String.length a + String.length b))%nat with 0%nat by lia.
  rewrite substring_zero_length.
  change ("" +:+ "") with "". apply string_app_empty_r.
Qed.

Section store.
Context `{Platform}.
Variable dir : string.

(** ** Deleting a record *)

Lemma deleteSession_files sessionId fsys :
  denied (deleteSession dir sessionId fsys) = denied fsys ∧
  files (deleteSession dir sessionId fsys) =
    if decide (getSessionFilePath dir sessionId ∈ denied fsys)
    then files fsys
    else delete (getSessionFilePath dir sessionId) (files fsys).
Proof.
  unfold deleteSession, unlink.
  case_decide; simpl; [done|].
  destruct (files fsys !! getSessionFilePath dir sessionId) eqn:Hf; simpl;
    [done|].
  split; [done|]. by rewrite delete_id.
Qed.

Lemma FileSystem_eq f1 f2 :
  files f1 = files f2 → denied f1 = denied f2 → f1 = f2.
Proof. destruct f1, f2. simpl. by intros -> ->. Qed.

(** X6. [deleteSession] never throws and may be repeated without effect;
    after it, [loadSession] on the identifier returns [null] provided the
    file may be accessed, and the records kept in other files load as
    before. *)
Theorem X6_deleted_record_loads_as_null sessionId fsys :
  deleteSession dir sessionId (deleteSession dir sessionId fsys)
    = deleteSession dir sessionId fsys ∧
  (getSessionFilePath dir sessionId ∉ denied fsys →
   loadSession dir sessionId (deleteSession dir sessionId fsys) = inr None) ∧
  (∀ other,
     getSessionFilePath dir other ≠ getSessionFilePath dir sessionId →
     loadSession dir other (deleteSession dir sessionId fsys)
       = loadSession dir other fsys).
Proof.
  destruct (deleteSession_files sessionId fsys) as [Hd Hf].
  split; [|split].
  - destruct (deleteSession_files sessionId (deleteSession dir sessionId fsys))
      as [Hd' Hf'].
    apply FileSystem_eq; [|by rewrite Hd'].
    rewrite Hf', Hd, Hf.
    destruct (decide (getSessionFilePath dir sessionId ∈ denied fsys));
      [done|]. by rewrite delete_delete_eq.
  - intros Hok. unfold loadSession, readFile.
    rewrite Hd, Hf, !decide_False by done.
    by rewrite lookup_delete_eq.
  - intros other Hne. unfold loadSession, readFile. rewrite Hd, Hf.
    destruct (decide (getSessionFilePath dir sessionId ∈ denied fsys)); [done|].
    by rewrite lookup_delete_ne.
Qed.

(** ** Listing *)

Lemma saveSession_frame r fsys fsys' :
  saveSession dir r fsys = (inr (), fsys') →
  (dir ∉ denied fsys') ∧ denied fsys' = denied fsys.
Proof.
  unfold saveSession, initialize, mkdir, writeFile.
  case_decide; [done|]. case_decide; [done|].
  by intros [= <-].
Qed.

(** X7. After a successful [saveSession] the identifier of the record is
    among the [listPersistedSessions], and the record itself is among the
    [loadAllSessions], whatever else the directory holds (malformed files
    are skipped).  This needs of the runtime that the directory lists the
    file under the name it was joined from and that the record is read
    back as written, and of the identifier that the first [.json] in its
    file name is the extension: [listPersistedSessions] strips the first
    occurrence. *)
Theorem X7_saved_record_is_listed_and_loaded r fsys fsys' :
  path_entry dir (getSessionFilePath dir (persistedId r))
    = Some (persistedId r +:+ ".json") →
  String.index 0 ".json" (persistedId r +:+ ".json")
    = Some (String.length (persistedId r)) →
  JSON_parse (JSON_stringify r) = Some r →
  saveSession dir r fsys = (inr (), fsys') →
  persistedId r ∈ listPersistedSessions dir fsys' ∧
  r ∈ loadAllSessions dir fsys'.
Proof.
  intros Hentry Hindex Hjson Hsave.
  destruct (saveSession_frame r fsys fsys' Hsave) as [Hdir _].
  pose proof (saveSession_holds dir r fsys fsys' Hsave) as Hholds.
  assert (persistedId r ∈ listPersistedSessions dir fsys') as Hlisted.
  { unfold listPersistedSessions, initialize, mkdir, readdir.
    rewrite !decide_False by done.
    apply list_elem_of_fmap. exists (persistedId r +:+ ".json"). split.
    - symmetry. by apply replaceFirst_suffix.
    - apply list_elem_of_filter. split.
      + rewrite endsWith_app. done.
      + apply list_elem_of_omap.
        exists (getSessionFilePath dir (persistedId r)). split; [|done].
        apply list_elem_of_fmap.
        exists (getSessionFilePath dir (persistedId r), JSON_stringify r).
        split; [done|]. apply elem_of_map_to_list. apply Hholds. }
  split; [done|].
  unfold loadAllSessions. apply list_elem_of_omap.
  exists (persistedId r). split; [done|].
  by rewrite (loadSession_holds dir _ _ r _ Hholds Hjson).
Qed.

(** ** Cleaning up *)

Variable parseTime : string → option Z.

Lemma cleanup_fold maxAge now sessions : ∀ count fsys,
  let r := foldl (λ '(cleanedCount, fsys) session,
                    if tooOld parseTime maxAge now session
                    then (S cleanedCount,
                          deleteSession dir (persistedId session) fsys)
                    else (cleanedCount, fsys))
                 (count, fsys) sessions in
  let old := filter (λ session, tooOld parseTime maxAge now session = true)
                    sessions in
  r.1 = (count + length old)%nat ∧
  denied r.2 = denied fsys ∧
  ∀ path,
    files r.2 !! path =
      if decide (path ∈ (λ session, getSessionFilePath dir (persistedId session))
                          <$> old ∧ path ∉ denied fsys)
      then None else files fsys !! path.
Proof.
  induction sessions as [|session sessions IH]; intros count fsys.
  { cbn [foldl]. cbn zeta. rewrite filter_nil.
    split; [simpl; lia|]. split; [done|]. intros path.
    rewrite decide_False; [done|]. rewrite fmap_nil.
    intros [Hin _]. by apply elem_of_nil in Hin. }
  cbn [foldl]. cbn zeta.
  destruct (tooOld parseTime maxAge now session) eqn:Hold.
  - rewrite filter_cons_True by done.
    specialize (IH (S count) (deleteSession dir (persistedId session) fsys)).
    cbn zeta in IH. destruct IH as (-> & -> & Hfiles).
    destruct (deleteSession_files (persistedId session) fsys) as [Hd Hf].
    split; [simpl; lia|]. split; [done|].
    intros path. rewrite Hfiles, Hd.
    assert (files (deleteSession dir (persistedId session) fsys) !! path =
            if decide (path = getSessionFilePath dir (persistedId session)
                       ∧ path ∉ denied fsys)
            then None else files fsys !! path) as ->.
    { rewrite Hf.
      destruct (decide (getSessionFilePath dir (persistedId session)
                          ∈ denied fsys)) as [Hden|Hok].
      - rewrite decide_False; [done|]. by intros [-> ?].
      - destruct (decide (path = getSessionFilePath dir (persistedId session)))
          as [->|Hne].
        + rewrite lookup_delete_eq. by rewrite decide_True.
        + rewrite lookup_delete_ne by done.
          rewrite decide_False; [done|]. by intros [? _]. }
    clear Hf Hfiles.
    repeat case_decide; try done; exfalso;
      repeat match goal with
             | H : context [_ <$> (_ :: _)] |- _ =>
                 rewrite fmap_cons, elem_of_cons in H
             end; intuition.
  - rewrite filter_cons_False by (by rewrite Hold).
    apply IH.
Qed.

(** X8. [cleanupOldSessions] returns the number of loadable records whose
    last access lies more than [maxAgeMs] back (a last-access text that
    is not a date is never old), deletes the files of exactly these
    records as far as they may be accessed, and leaves every other file
    as it was. *)
Theorem X8_cleanup_deletes_exactly_the_old_records maxAgeMs now fsys :
  let r := cleanupOldSessions dir parseTime maxAgeMs now fsys in
  let old := oldFiles dir parseTime maxAgeMs now fsys in
  r.1 = length old ∧
  denied r.2 = denied fsys ∧
  ∀ path,
    files r.2 !! path =
      if decide (path ∈ old ∧ path ∉ denied fsys) then None
      else files fsys !! path.
Proof.
  intros r old. subst r old. unfold cleanupOldSessions, oldFiles.
  destruct (cleanup_fold (default (7 * 24 * 60 * 60 * 1000) maxAgeMs) now
              (loadAllSessions dir fsys) 0%nat fsys) as (Hcount & Hdenied & Hfiles).
  rewrite length_fmap. split; [by rewrite Hcount|]. split; [done|].
  apply Hfiles.
Qed.
End store.

Lemma X6_witness :
  let fsys := (saveSession (H := Demo.demoPlatform) SessionManager.persistenceDir
                 (Demo.demoRecord "s1") Demo.emptyDisk).2 in
  loadSession (H := Demo.demoPlatform) SessionManager.persistenceDir "s1"
    (deleteSession (H := Demo.demoPlatform) SessionManager.persistenceDir "s1" fsys)
    = inr None.
Proof.
  intros fsys.
  destruct (X6_deleted_record_loads_as_null (H := Demo.demoPlatform)
              SessionManager.persistenceDir "s1" fsys) as (_ & Hload & _).
  apply Hload. vm_compute. intros Hin. inversion Hin.
Defined.

Lemma X7_witness :
  let r := Demo.demoRecord "s2" in
  let dir := SessionManager.persistenceDir in
  let fsys' := (saveSession (H := Demo.demoPlatform) dir r Demo.brokenDisk).2 in
  persistedId r ∈ listPersistedSessions (H := Demo.demoPlatform) dir fsys' ∧
  r ∈ loadAllSessions (H := Demo.demoPlatform) dir fsys'.
Proof.
  intros r dir fsys'.
  apply (X7_saved_record_is_listed_and_loaded (H := Demo.demoPlatform)
           dir r Demo.brokenDisk); reflexivity.
Defined.

End SessionPersistenceExtras.

(* ===================================================================== *)
(** * SessionManager: further properties *)
(* ===================================================================== *)

Module SessionManagerExtras.
Import SessionManager SessionSpec SessionManagerFacts SessionManagerMore.

Section extras.
Context `{Platform}.

(** ** [createSession], case by case *)

Lemma createSession_cases sessionId settings engine now w :
  let sm := sessionManager w in
  let id := chosenId sessionId sm in
  (∃ e, createSession sessionId settings engine now w
          = (inl e,
             set_sessionManager
               (mkState (sessions sm) (defaultSessionId sm)
                        (counterAfter sessionId sm)) w) ∧
        (is_Some (sessions sm !! id) ∨
         browserTypeOf settings ∉ ["chromium"; "firefox"; "webkit"] ∨
         launchResult engine = inl e)) ∨
  (∃ handles,
     launchResult engine = inr handles ∧
     sessions sm !! id = None ∧
     browserTypeOf settings ∈ ["chromium"; "firefox"; "webkit"] ∧
     let session := newSession id handles (browserTypeOf settings) now settings in
     createSession sessionId settings engine now w
       = (inr id, persistSession session (launchSnapshot engine)
                    (registered sessionId session w))).
Proof.
  destruct w as [[ss d n] fsys rm].
  intros sm id. subst sm id.
  unfold registered, createSession, chosenId, counterAfter. simpl.
  fold (browserTypeOf settings).
  destruct (truthy sessionId) as [id|]; simpl.
  - case_decide as Hex; [left; eexists; split; [done|by left]|].
    case_decide as Hbt; [|left; eexists; split; [done|right; left; exact Hbt]].
    destruct (launchResult engine) as [e|[b p]] eqn:Hl;
      [left; eexists; split; [done|by right; right]|].
    right. exists (b, p). split; [done|]. split; [by apply eq_None_not_Some|].
    split; [exact Hbt|]. done.
  - case_decide as Hex; [left; eexists; split; [done|by left]|].
    case_decide as Hbt; [|left; eexists; split; [done|right; left; exact Hbt]].
    destruct (launchResult engine) as [e|[b p]] eqn:Hl;
      [left; eexists; split; [done|by right; right]|].
    right. exists (b, p). split; [done|]. split; [by apply eq_None_not_Some|].
    split; [exact Hbt|]. done.
Qed.

Lemma persistSession_disk session snap w :
  disk (persistSession session snap w) =
    match snapshotCookies snap with
    | inl _ => disk w
    | inr cookies =>
        (SessionPersistence.saveSession persistenceDir
           (snapshotRecord session snap cookies) (disk w)).2
    end.
Proof. unfold persistSession. by destruct (snapshotCookies snap). Qed.

(** ** Whatever the elementary updates keep, every method keeps *)

Section chain.
Variable R : Process → Process → Prop.
Hypothesis R_refl : ∀ w, R w w.
Hypothesis R_trans : ∀ w1 w2 w3, R w1 w2 → R w2 w3 → R w1 w3.
Hypothesis R_create : ∀ sessionId settings engine now w,
  R w (createSession sessionId settings engine now w).2.
Hypothesis R_get : ∀ sessionId now w, R w (getSession sessionId now w).2.
Hypothesis R_delete : ∀ k w,
  R w (set_sessionManager
         (set_sessions (delete k (sessions (sessionManager w)))
                       (sessionManager w)) w).
Hypothesis R_disk : ∀ fsys w, R w (set_disk fsys w).

Lemma chain_close sessionId closeFails w :
  R w (closeSession sessionId closeFails w).2.
Proof.
  unfold closeSession.
  destruct (sessions (sessionManager w) !! sessionId); simpl; auto.
Qed.

Lemma chain_ensure sessionId settings connected e1 e2 now w :
  R w (ensureSession sessionId settings connected e1 e2 now w).2.
Proof.
  unfold ensureSession.
  set (id := default (defaultSessionId (sessionManager w)) (truthy sessionId)).
  pose proof (R_get (Some id) now w) as H1.
  destruct (getSession (Some id) now w) as [found w1]. simpl in H1.
  assert (∃ found' w2,
    match found with
    | Some session => (inr (Some session), w1)
    | None =>
        match createSession (Some id) settings e1 now w1 with
        | (inl e, w) => (inl e, w)
        | (inr _, w) =>
            let '(s, w) := getSession (Some id) now w in (inr s, w)
        end
    end = (found', w2) ∧ R w w2) as (found' & w2 & -> & H2).
  { destruct found as [session|]; [by eauto|].
    pose proof (R_create (Some id) settings e1 now w1) as Hc.
    destruct (createSession (Some id) settings e1 now w1) as [[e|?] wc];
      simpl in Hc.
    - eexists _, _. split; [done|]. by eapply R_trans.
    - pose proof (R_get (Some id) now wc) as Hg.
      destruct (getSession (Some id) now wc) as [sg wg]. simpl in Hg.
      eexists _, _. split; [done|].
      eapply R_trans; [|exact Hg]. by eapply R_trans. }
  destruct found' as [e|[session|]]; simpl; [done..| |done].
  destruct connected; simpl; [done|].
  pose proof (R_delete id w2) as Hd.
  set (w3 := set_sessionManager _ w2) in *.
  pose proof (R_create (Some id) settings e2 now w3) as Hc.
  destruct (createSession (Some id) settings e2 now w3) as [[e|?] wc];
    simpl in Hc |- *.
  - eapply R_trans; [exact H2|]. by eapply R_trans.
  - pose proof (R_get (Some id) now wc) as Hg.
    destruct (getSession (Some id) now wc) as [[sg|] wg]; simpl in Hg |- *;
      (eapply R_trans; [exact H2|];
       eapply R_trans; [exact Hd|];
       by eapply R_trans).
Qed.

Lemma chain_recover sessionId engine now w :
  R w (recoverSession sessionId engine now w).2.
Proof.
  unfold recoverSession.
  destruct (SessionPersistence.loadSession _ _ _) as [e|[data|]];
    [apply R_refl| |apply R_refl].
  pose proof (R_create (Some sessionId) (Some (persistedSettings data))
                (recoveryLaunch engine) now w) as Hc.
  destruct (createSession _ _ _ _ _) as [[e|newId] w1]; simpl in Hc; [done|].
  pose proof (R_get (Some newId) now w1) as Hg.
  destruct (getSession _ _ _) as [[session|] w2]; simpl in Hg.
  - assert (R w w2) by by eapply R_trans.
    destruct (if decide (_ ∧ _) then _ else _) as [?|?]; [done|].
    destruct (if decide (cookies data ≠ []) then _ else _) as [?|?]; [done|].
    by destruct (evaluateResult engine).
  - by eapply R_trans.
Qed.

Lemma chain_recoverAll engines now l : ∀ report w,
  R w (foldl (recoverNext engines now) (report, w) l).2.
Proof.
  induction l as [|data l IH]; intros report w; [apply R_refl|].
  cbn [foldl].
  pose proof (recoverNext_world engines now report w data) as Hw.
  destruct (recoverNext engines now (report, w) data) as [report1 w1].
  simpl in Hw. subst w1.
  eapply R_trans; [apply chain_recover|apply IH].
Qed.

Lemma chain_step w e : R w (step w e).
Proof.
  destruct e; simpl; auto using chain_close, chain_ensure, chain_recover.
  - apply R_delete.
  - apply chain_recoverAll.
Qed.

Lemma chain_closeAll_fold closeFails l : ∀ w,
  R w (foldl (λ w id, (closeSession id (closeFails id) w).2) w l).
Proof.
  induction l as [|id l IH]; intros w; [apply R_refl|].
  simpl. eapply R_trans; [apply chain_close|apply IH].
Qed.

Lemma chain_cleanup_fold maxIdle closeFails now d l : ∀ count w,
  R w (foldl (λ '(cleanedCount, w) entry,
                if decide (idle maxIdle now d entry)
                then (S cleanedCount,
                      (closeSession entry.1 (closeFails entry.1) w).2)
                else (cleanedCount, w))
             (count, w) l).2.
Proof.
  induction l as [|entry l IH]; intros count w; [apply R_refl|].
  cbn [foldl]. cbn zeta. case_decide.
  - eapply R_trans; [apply chain_close|apply IH].
  - apply IH.
Qed.

Lemma chain_call w c : R w (call w c).
Proof.
  destruct c; simpl.
  - apply chain_step.
  - apply chain_cleanup_fold.
  - apply chain_closeAll_fold.
  - apply R_disk.
Qed.

Lemma chain_calls cs : ∀ w, R w (calls cs w).
Proof.
  induction cs as [|c cs IH]; intros w; [apply R_refl|].
  simpl. eapply R_trans; [apply chain_call|apply IH].
Qed.
End chain.

(** ** The entries of the registry *)

Lemma persistSession_sessionManager session snap w :
  sessionManager (persistSession session snap w) = sessionManager w.
Proof. apply persistSession_frame. Qed.

Lemma createSession_sessions sessionId settings engine now w :
  let r := createSession sessionId settings engine now w in
  sessions (sessionManager r.2) = sessions (sessionManager w) ∨
  ∃ handles,
    r.1 = inr (chosenId sessionId (sessionManager w)) ∧
    sessions (sessionManager w) !! chosenId sessionId (sessionManager w) = None ∧
    browserTypeOf settings ∈ ["chromium"; "firefox"; "webkit"] ∧
    sessions (sessionManager r.2) =
      <[chosenId sessionId (sessionManager w) :=
          newSession (chosenId sessionId (sessionManager w)) handles
                     (browserTypeOf settings) now settings]>
        (sessions (sessionManager w)).
Proof.
  intros r. subst r.
  destruct (createSession_cases sessionId settings engine now w)
    as [(e & -> & _)|(handles & _ & Hfree & Hbt & ->)]; [by left|].
  right. exists handles. simpl. rewrite persistSession_sessionManager.
  done.
Qed.

Lemma wellKeyed_create sessionId settings engine now w :
  wellKeyed (sessions (sessionManager w)) →
  wellKeyed (sessions (sessionManager
                         (createSession sessionId settings engine now w).2)).
Proof.
  intros Hw.
  destruct (createSession_sessions sessionId settings engine now w)
    as [->|(handles & _ & _ & Hbt & ->)]; [done|].
  intros k session. rewrite lookup_insert. case_decide as Hk; [|apply Hw].
  intros [= <-]. subst k. simpl. split; [done|]. split; [|done].
  apply chosenId_nonempty.
Qed.

Lemma wellKeyed_get sessionId now w :
  wellKeyed (sessions (sessionManager w)) →
  wellKeyed (sessions (sessionManager (getSession sessionId now w).2)).
Proof.
  intros Hw. unfold getSession.
  destruct (sessions (sessionManager w) !! _) as [s|] eqn:Hs; simpl; [|done].
  intros k session. rewrite lookup_insert. case_decide as Hk; [|apply Hw].
  intros [= <-]. subst k. simpl. by apply Hw.
Qed.

Lemma wellKeyed_calls cs fsys rm :
  wellKeyed (sessions (sessionManager (calls cs (start fsys rm)))).
Proof.
  apply (chain_calls
           (λ w w', wellKeyed (sessions (sessionManager w)) →
                    wellKeyed (sessions (sessionManager w')))).
  - done.
  - auto.
  - intros. by apply wellKeyed_create.
  - intros. by apply wellKeyed_get.
  - intros k w Hw k' session. simpl. rewrite lookup_delete.
    case_decide; [done|]. apply Hw.
  - done.
  - intros k session. simpl. by rewrite lookup_empty.
Qed.

(** X9. Whatever methods are called on a session manager, each entry of
    its registry is filed under the session's own identifier, the
    identifier is not the empty string, and the session's browser type is
    one of the three that can be launched. *)
Theorem X9_registry_entries_are_well_keyed cs fsys rm k session :
  sessions (sessionManager (calls cs (start fsys rm))) !! k = Some session →
  id session = k ∧ k ≠ "" ∧
  browserType session ∈ ["chromium"; "firefox"; "webkit"].
Proof. apply wellKeyed_calls. Qed.



(** ** Generated identifiers *)

Lemma counter_calls cs w :
  (nextSessionId (sessionManager w)
     ≤ nextSessionId (sessionManager (calls cs w)))%N.
Proof.
  apply (chain_calls
           (λ w w', (nextSessionId (sessionManager w)
                       ≤ nextSessionId (sessionManager w'))%N)).
  - done.
  - intros. by etrans.
  - intros sessionId settings engine now w0.
    destruct (createSession_spec sessionId settings engine now w0)
      as (_ & _ & -> & _).
    unfold counterAfter. destruct (truthy sessionId); lia.
  - intros sessionId now w0.
    by destruct (getSession_spec sessionId now w0) as (_ & _ & _ & _ & -> & _).
  - done.
  - done.
Qed.

(** X11. An identifier generated by [createSession] is never handed out
    twice: two calls without identifier that both return, with any calls
    in between (closing the first session included), return different
    identifiers. *)
Theorem X11_generated_identifiers_are_not_reused
    cs w settings1 engine1 now1 settings2 engine2 now2 id1 id2 :
  let r1 := createSession None settings1 engine1 now1 w in
  let r2 := createSession None settings2 engine2 now2 (calls cs r1.2) in
  r1.1 = inr id1 → r2.1 = inr id2 → id1 ≠ id2.
Proof.
  intros r1 r2 H1 H2.
  destruct (createSession_spec None settings1 engine1 now1 w)
    as (_ & _ & Hnext & Hres). fold r1 in Hnext, Hres.
  rewrite H1 in Hres. destruct Hres as (-> & _).
  destruct (createSession_spec None settings2 engine2 now2 (calls cs r1.2))
    as (_ & _ & _ & Hres). fold r2 in Hres.
  rewrite H2 in Hres. destruct Hres as (-> & _).
  unfold chosenId, counterAfter in *. simpl in *.
  pose proof (counter_calls cs r1.2) as Hmono. rewrite Hnext in Hmono.
  intros Heq. apply (inj (String.app "session-")), (inj pretty) in Heq.
  lia.
Qed.

(** ** Closing every session *)

Lemma closeAll_fold closeFails l : ∀ w,
  let w' := foldl (λ w id, (closeSession id (closeFails id) w).2) w l in
  disk w' = disk w ∧ resourceManager w' = resourceManager w ∧
  defaultSessionId (sessionManager w') = defaultSessionId (sessionManager w) ∧
  nextSessionId (sessionManager w') = nextSessionId (sessionManager w) ∧
  ∀ k, sessions (sessionManager w') !! k =
         if decide (k ∈ l) then None else sessions (sessionManager w) !! k.
Proof.
  induction l as [|id l IH]; intros w.
  { simpl. repeat split; done. }
  cbn [foldl]. cbn zeta.
  specialize (IH (closeSession id (closeFails id) w).2). cbn zeta in IH.
  destruct IH as (-> & -> & -> & -> & Hk).
  destruct (closeSession_spec id (closeFails id) w)
    as (Hrm & Hdisk & Hdef & Hnext & Hres).
  repeat split; try done.
  intros k. rewrite Hk.
  assert (sessions (sessionManager (closeSession id (closeFails id) w).2) !! k
          = if decide (k = id) then None else sessions (sessionManager w) !! k)
    as ->.
  { destruct (sessions (sessionManager w) !! id) eqn:Hid.
    - destruct Hres as [_ ->]. rewrite lookup_delete.
      by repeat case_decide.
    - rewrite Hres. simpl. case_decide; [by subst|done]. }
  repeat case_decide; try done; exfalso;
    repeat match goal with
           | H : context [_ ∈ _ :: _] |- _ => rewrite elem_of_cons in H
           end; intuition.
Qed.

(** X12. [closeAllSessions] leaves the registry empty and touches nothing
    else: the disk, the resource manager and the counter of generated
    identifiers are what they were, so identifiers generated afterwards
    continue the numbering. *)
Theorem X12_closeAllSessions_empties_the_registry closeFails w :
  let w' := closeAllSessions closeFails w in
  sessions (sessionManager w') = ∅ ∧
  getSessionCount w' = 0%nat ∧
  disk w' = disk w ∧ resourceManager w' = resourceManager w ∧
  nextSessionId (sessionManager w') = nextSessionId (sessionManager w).
Proof.
  intros w'. subst w'. unfold closeAllSessions.
  destruct (closeAll_fold closeFails
              (map_to_list (sessions (sessionManager w))).*1 w)
    as (Hdisk & Hrm & _ & Hnext & Hk).
  assert (sessions (sessionManager
            (foldl (λ w id, (closeSession id (closeFails id) w).2) w
                   (map_to_list (sessions (sessionManager w))).*1)) = ∅) as Hempty.
  { apply map_eq. intros k. rewrite Hk, lookup_empty.
    case_decide as Hin; [done|].
    destruct (sessions (sessionManager w) !! k) as [session|] eqn:Hs; [|done].
    destruct Hin. apply list_elem_of_fmap. exists (k, session).
    split; [done|]. by apply elem_of_map_to_list. }
  split; [done|]. split; [|done].
  unfold getSessionCount. rewrite Hempty. apply map_size_empty.
Qed.

(** ** Cleaning up idle sessions *)

Lemma cleanupIdle_fold maxIdle closeFails now d l : ∀ count w,
  NoDup l.*1 →
  (∀ k session, (k, session) ∈ l →
     sessions (sessionManager w) !! k = Some session) →
  let r := foldl (λ '(cleanedCount, w) entry,
                    if decide (idle maxIdle now d entry)
                    then (S cleanedCount,
                          (closeSession entry.1 (closeFails entry.1) w).2)
                    else (cleanedCount, w))
                 (count, w) l in
  let closed := (filter (idle maxIdle now d) l).*1 in
  r.1 = (count + length closed)%nat ∧
  disk r.2 = disk w ∧ resourceManager r.2 = resourceManager w ∧
  (∀ k, k ∈ closed → sessions (sessionManager r.2) !! k = None) ∧
  (∀ k, k ∉ closed →
     sessions (sessionManager r.2) !! k = sessions (sessionManager w) !! k) ∧
  (size (sessions (sessionManager r.2)) + length closed)%nat
    = size (sessions (sessionManager w)).
Proof.
  induction l as [|[k0 s0] l IH]; intros count w Hnd Hl.
  { cbn [foldl]. cbn zeta. rewrite filter_nil. simpl.
    repeat split; try done; try lia.
    intros k Hk. by apply elem_of_nil in Hk. }
  rewrite fmap_cons in Hnd. apply NoDup_cons in Hnd as [Hk0 Hnd].
  assert (Htail : ∀ k, k ∈ (filter (idle maxIdle now d) l).*1 → k ≠ k0).
  { intros k Hk ->. apply Hk0.
    apply list_elem_of_fmap in Hk as ([k' s'] & -> & Hin).
    apply list_elem_of_filter in Hin as [_ Hin].
    apply list_elem_of_fmap. by exists (k', s'). }
  cbn [foldl]. cbn zeta. case_decide as Hidle.
  - rewrite filter_cons_True by done.
    pose proof (Hl k0 s0 ltac:(left)) as Hs0.
    destruct (closeSession_spec k0 (closeFails k0) w)
      as (Hrm & Hdisk & _ & _ & Hres).
    rewrite Hs0 in Hres. destruct Hres as [_ Hdel].
    rewrite fmap_cons. cbn [fst snd length].
    specialize (IH (S count) (closeSession k0 (closeFails k0) w).2 Hnd).
    cbn zeta in IH.
    destruct IH as (-> & -> & -> & Hclosed & Hkept & Hsize).
    { intros k session Hin. rewrite Hdel, lookup_delete_ne.
      - apply Hl. by right.
      - intros <-. apply Hk0. apply list_elem_of_fmap. by exists (k0, session). }
    split; [lia|]. split; [done|]. split; [done|].
    split; [|split].
    + intros k [->|Hk]%elem_of_cons; [|by apply Hclosed].
      destruct (decide (k0 ∈ (filter (idle maxIdle now d) l).*1)) as [Hin|Hout].
      * by apply Hclosed.
      * rewrite Hkept by done. by rewrite Hdel, lookup_delete_eq.
    + intros k Hk. apply not_elem_of_cons in Hk as [Hne Hk].
      rewrite Hkept by done. by rewrite Hdel, lookup_delete_ne.
    + rewrite Hdel in Hsize.
      pose proof (map_size_delete_Some k0 (sessions (sessionManager w))
                    ltac:(by exists s0)).
      pose proof (map_size_ne_0_lookup_2 (sessions (sessionManager w)) k0
                    ltac:(by exists s0)).
      lia.
  - rewrite filter_cons_False by done.
    apply IH; [done|]. intros k session Hin. apply Hl. by right.
Qed.

(** X13. [cleanupIdleSessions] closes exactly the sessions whose idle time
    [now - lastAccessedAt] is strictly above the threshold and that are
    not the default session; every other session, the default one above
    all, stays as it is.  The number it returns is the number of sessions
    it closed: together with the sessions that remain it makes up the
    sessions there were. *)
Theorem X13_cleanup_closes_exactly_the_idle_sessions
    maxIdleTimeMs closeFails now w :
  let r := cleanupIdleSessions maxIdleTimeMs closeFails now w in
  let limit := default defaultMaxIdleTimeMs maxIdleTimeMs in
  let defaultId := defaultSessionId (sessionManager w) in
  (∀ k, sessions (sessionManager r.2) !! k =
          match sessions (sessionManager w) !! k with
          | Some session =>
              if decide (limit < now - lastAccessedAt session ∧ k ≠ defaultId)
              then None else Some session
          | None => None
          end) ∧
  sessions (sessionManager r.2) !! defaultId
    = sessions (sessionManager w) !! defaultId ∧
  (r.1 + getSessionCount r.2)%nat = getSessionCount w ∧
  disk r.2 = disk w ∧ resourceManager r.2 = resourceManager w.
Proof.
  intros r limit defaultId. subst r. unfold cleanupIdleSessions.
  fold limit defaultId.
  set (m := sessions (sessionManager w)).
  destruct (cleanupIdle_fold limit closeFails now defaultId (map_to_list m)
              0%nat w) as (Hcount & Hdisk & Hrm & Hclosed & Hkept & Hsize).
  { apply NoDup_fst_map_to_list. }
  { intros k session Hin. by apply elem_of_map_to_list. }
  set (closed := (filter (idle limit now defaultId) (map_to_list m)).*1) in *.
  assert (Hin : ∀ k, k ∈ closed ↔
            ∃ session, m !! k = Some session ∧ idle limit now defaultId (k, session)).
  { intros k. unfold closed. rewrite list_elem_of_fmap. split.
    - intros ([k' session] & -> & [Hidle Hel]%list_elem_of_filter).
      exists session. split; [by apply elem_of_map_to_list|done].
    - intros (session & Hk & Hidle). exists (k, session). split; [done|].
      apply list_elem_of_filter. split; [done|]. by apply elem_of_map_to_list. }
  assert (Hall : ∀ k, sessions (sessionManager
      (foldl (λ '(cleanedCount, w0) entry,
                if decide (idle limit now defaultId entry)
                then (S cleanedCount,
                      (closeSession entry.1 (closeFails entry.1) w0).2)
                else (cleanedCount, w0)) (0%nat, w) (map_to_list m)).2) !! k =
          match m !! k with
          | Some session =>
              if decide (limit < now - lastAccessedAt session ∧ k ≠ defaultId)
              then None else Some session
          | None => None
          end).
  { intros k. destruct (m !! k) as [session|] eqn:Hk.
    - case_decide as Hidle.
      + apply Hclosed, Hin. by exists session.
      + rewrite Hkept; [done|]. rewrite Hin. intros (session' & Hk' & Hidle').
        assert (session' = session) as -> by congruence. by apply Hidle.
    - rewrite Hkept; [done|]. rewrite Hin. intros (session' & Hk' & _).
      congruence. }
  split; [exact Hall|]. split; [|split; [|done]].
  - rewrite Hall. fold m. destruct (m !! defaultId); [|done].
    rewrite decide_False; [done|]. by intros [_ ?].
  - unfold getSessionCount. rewrite Hcount. subst m closed. cbn [fst snd]. lia.
Qed.

(** ** Ensuring a session *)

Lemma getSession_found sessionId now w session w' :
  getSession sessionId now w = (Some session, w') →
  sessions (sessionManager w')
    !! default (defaultSessionId (sessionManager w)) (truthy sessionId)
    = Some session ∧
  lastAccessedAt session = now.
Proof.
  unfold getSession.
  destruct (sessions (sessionManager w) !! _) as [s|]; [|done].
  intros [= <- <-]. simpl. by rewrite lookup_insert_eq.
Qed.

Lemma default_calls cs fsys rm :
  defaultSessionId (sessionManager (calls cs (start fsys rm))) = "default".
Proof.
  apply (chain_calls
           (λ w w', defaultSessionId (sessionManager w) = "default" →
                    defaultSessionId (sessionManager w') = "default")).
  - done.
  - auto.
  - intros sessionId settings engine now w Hw.
    by destruct (createSession_spec sessionId settings engine now w)
      as (_ & -> & _).
  - intros sessionId now w Hw.
    by destruct (getSession_spec sessionId now w) as (_ & _ & _ & -> & _).
  - done.
  - done.
  - done.
Qed.

Lemma wellKeyed_ensure sessionId settings connected e1 e2 now w :
  wellKeyed (sessions (sessionManager w)) →
  wellKeyed (sessions (sessionManager
               (ensureSession sessionId settings connected e1 e2 now w).2)).
Proof.
  apply (chain_ensure
           (λ w w', wellKeyed (sessions (sessionManager w)) →
                    wellKeyed (sessions (sessionManager w')))).
  - auto.
  - intros. by apply wellKeyed_create.
  - intros. by apply wellKeyed_get.
  - intros k w0 Hw k' session. simpl. rewrite lookup_delete.
    case_decide; [done|]. apply Hw.
Qed.

(** X14. When [ensureSession] returns a session, that session is the one
    registered under the requested identifier (or under [default] when
    none or the empty string is given), it carries that identifier, and
    its last access is the time of the call. *)
Theorem X14_ensureSession_returns_the_registered_session
    cs fsys rm sessionId settings connected e1 e2 now session w' :
  let w := calls cs (start fsys rm) in
  let id := default "default" (truthy sessionId) in
  ensureSession sessionId settings connected e1 e2 now w = (inr session, w') →
  sessions (sessionManager w') !! id = Some session ∧
  SessionManager.id session = id ∧
  lastAccessedAt session = now.
Proof.
  intros w id Hens.
  assert (wellKeyed (sessions (sessionManager w'))) as Hwk.
  { pose proof (wellKeyed_ensure sessionId settings connected e1 e2 now w
                  (wellKeyed_calls cs fsys rm)) as Hwk.
    fold w in Hwk. by rewrite Hens in Hwk. }
  assert (id ≠ "") as Hid.
  { unfold id. destruct (truthy sessionId) eqn:Hs; simpl; [|done].
    by eapply truthy_nonempty. }
  assert (Hfound : ∀ wa wb d,
            getSession (Some id) now wa = (Some session, wb) →
            default d (truthy (Some id)) = id) by
    (intros; by rewrite truthy_Some).
  assert (sessions (sessionManager w') !! id = Some session
          ∧ lastAccessedAt session = now) as [Hreg Hnow].
  { unfold ensureSession in Hens. unfold w in Hens.
    rewrite (default_calls cs fsys rm) in Hens. fold w id in Hens.
    cbn zeta in Hens.
    destruct (getSession (Some id) now w) as [[s|] w1] eqn:Hg1.
    - destruct connected.
      + injection Hens as <- <-.
        apply getSession_found in Hg1. by rewrite truthy_Some in Hg1.
      + destruct (createSession (Some id) settings e2 now _) as [[e|?] wc];
          [done|].
        destruct (getSession (Some id) now wc) as [[s'|] wg] eqn:Hg2; [|done].
        injection Hens as <- <-.
        apply getSession_found in Hg2. by rewrite truthy_Some in Hg2.
    - destruct (createSession (Some id) settings e1 now w1) as [[e|?] wc];
        [done|].
      destruct (getSession (Some id) now wc) as [[s2|] wg] eqn:Hg2; [|done].
      destruct connected.
      + injection Hens as <- <-.
        apply getSession_found in Hg2. by rewrite truthy_Some in Hg2.
      + destruct (createSession (Some id) settings e2 now _) as [[e|?] wc'];
          [done|].
        destruct (getSession (Some id) now wc') as [[s'|] wg'] eqn:Hg3; [|done].
        injection Hens as <- <-.
        apply getSession_found in Hg3. by rewrite truthy_Some in Hg3. }
  split; [done|]. split; [|done]. by apply (Hwk id session).
Qed.

(** ** Recovery *)

(** X15. [recoverSession] on an identifier that is registered, with a
    record on disk that can be read, returns null and changes nothing:
    [createSession] refuses the identifier and the error is swallowed; the
    live session is neither replaced nor touched. *)
Theorem X15_recoverSession_refuses_a_live_session
    sessionId recovery now w record :
  sessionId ≠ "" →
  is_Some (sessions (sessionManager w) !! sessionId) →
  SessionPersistence.loadSession persistenceDir sessionId (disk w)
    = inr (Some record) →
  recoverSession sessionId recovery now w = (None, w).
Proof.
  intros Hne Hlive Hload. unfold recoverSession. rewrite Hload.
  destruct (createSession_cases (Some sessionId)
              (Some (persistedSettings record)) (recoveryLaunch recovery) now w)
    as [(e & -> & _)|(handles & _ & Hnone & _)]; cbn zeta in *.
  - f_equal. destruct w as [[ss d n] fsys rm].
    unfold counterAfter. by rewrite truthy_Some.
  - unfold chosenId in Hnone. rewrite truthy_Some in Hnone by done.
    rewrite Hnone in Hlive. by destruct Hlive.
Qed.

Lemma browserTypeOf_persisted settings :
  browserTypeOf (Some (default noSettings settings)) = browserTypeOf settings.
Proof. by destruct settings. Qed.

(** X16. A session that [createSession] registered and persisted is found
    again after a restart: the record on disk is the snapshot of the
    session, and on a process that starts from that disk [recoverSession]
    returns the identifier and registers under it a session of the same
    browser type, with the saved settings and the handles of the new
    launch. *)
Theorem X16_persisted_session_is_recovered_after_restart
    sessionId settings engine now w id w1 session cookies
    recovery now' rm' handles' :
  let record := snapshotRecord session (launchSnapshot engine) cookies in
  createSession sessionId settings engine now w = (inr id, w1) →
  sessions (sessionManager w1) !! id = Some session →
  snapshotCookies (launchSnapshot engine) = inr cookies →
  persistenceDir ∉ denied (disk w) →
  SessionPersistence.getSessionFilePath persistenceDir id ∉ denied (disk w) →
  JSON_parse (JSON_stringify record) = Some record →
  launchResult (recoveryLaunch recovery) = inr handles' →
  gotoResult recovery = inr () →
  addCookiesResult recovery = inr () →
  evaluateResult recovery = inr () →
  SessionPersistence.loadSession persistenceDir id (disk w1)
    = inr (Some record) ∧
  let r := recoverSession id recovery now' (start (disk w1) rm') in
  r.1 = Some id ∧
  sessions (sessionManager r.2) !! id =
    Some (newSession id handles' (browserType session) now'
            (Some (default noSettings settings))).
Proof.
  intros record Hcreate Hreg Hcookies Hdir Hfile Hjson Hlaunch Hgoto Hadd Heval.
  destruct (createSession_cases sessionId settings engine now w)
    as [(e & Heq & _)|(handles & Hl & Hnone & Hbt & Heq)]; cbn zeta in *;
    rewrite Heq in Hcreate; [done|].
  injection Hcreate as Hid Hw1.
  assert (id ≠ "") as Hne by (rewrite <- Hid; apply chosenId_nonempty).
  assert (session = newSession id handles (browserTypeOf settings) now settings)
    as Hsession.
  { rewrite <- Hw1, persistSession_sessionManager in Hreg.
    unfold registered in Hreg. simpl in Hreg.
    rewrite Hid, lookup_insert_eq in Hreg. congruence. }
  subst session.
  assert (SessionPersistence.loadSession persistenceDir id (disk w1)
            = inr (Some record)) as Hload.
  { apply (SessionPersistenceClaims.loadSession_holds _ _ (JSON_stringify record));
      [|done].
    change id with (persistedId record) at 1.
    apply (SessionPersistenceClaims.saveSession_holds _ _ (disk w)).
    rewrite <- Hw1, persistSession_disk, Hcookies, Hid. fold record.
    simpl disk.
    unfold SessionPersistence.saveSession, SessionPersistence.initialize, mkdir.
    rewrite decide_False by done.
    unfold writeFile. by rewrite decide_False by exact Hfile. }
  split; [done|].
  unfold recoverSession. simpl disk. rewrite Hload.
  destruct (createSession_cases (Some id) (Some (persistedSettings record))
              (recoveryLaunch recovery) now' (start (disk w1) rm'))
    as [(e & _ & [Hex|[Hnbt|Hfail]])|(handles2 & Hl2 & _ & _ & ->)];
    cbn zeta in *.
  - by destruct Hex.
  - exfalso. apply Hnbt. simpl. by rewrite browserTypeOf_persisted.
  - congruence.
  - assert (handles2 = handles') as -> by congruence.
    unfold chosenId. rewrite truthy_Some by done.
    unfold getSession. rewrite persistSession_sessionManager.
    rewrite truthy_Some by done. unfold registered. simpl.
    rewrite lookup_insert_eq.
    rewrite Hgoto, Hadd, Heval.
    do 2 case_decide; simpl; (split; [done|]); rewrite lookup_insert_eq;
      simpl; by rewrite browserTypeOf_persisted.
Qed.
End extras.

(** ** The properties at work on concrete runs *)

Lemma X9_witness :
  let session := newSession "s1" (1%nat, 1%nat) "chromium" 0 None in
  id session = "s1" ∧ "s1" ≠ "" ∧
  browserType session ∈ ["chromium"; "firefox"; "webkit"].
Proof.
  intros session.
  apply (X9_registry_entries_are_well_keyed (H := Demo.demoPlatform)
           [Method (CreateSession (Some "s1") None Demo.launchOk 0)]
           Demo.emptyDisk (ResourceManager.init ResourceManager.defaultConfig)
           "s1" session).
  vm_compute. reflexivity.
Defined.


Lemma X11_witness :
  let w := Demo.freshProcess in
  let r1 := createSession (H := Demo.demoPlatform) None None Demo.launchOk 0 w in
  let r2 := createSession (H := Demo.demoPlatform) None None Demo.launchOk 1
              (calls (H := Demo.demoPlatform)
                 [Method (CloseSession "session-1" false)] r1.2) in
  r1.1 = inr "session-1" ∧ r2.1 = inr "session-2" ∧ "session-1" ≠ "session-2".
Proof.
  intros w r1 r2.
  assert (r1.1 = inr "session-1") as H1 by (vm_compute; reflexivity).
  assert (r2.1 = inr "session-2") as H2 by (vm_compute; reflexivity).
  split; [exact H1|]. split; [exact H2|].
  exact (X11_generated_identifiers_are_not_reused (H := Demo.demoPlatform)
           [Method (CloseSession "session-1" false)] w
           None Demo.launchOk 0 None Demo.launchOk 1 _ _ H1 H2).
Defined.

Lemma X14_witness :
  let r := ensureSession (H := Demo.demoPlatform)
             None None true Demo.launchOk Demo.launchOk 5 Demo.freshProcess in
  let session := newSession "default" (1%nat, 1%nat) "chromium" 5 None in
  sessions (sessionManager r.2) !! "default" = Some session ∧
  id session = "default" ∧ lastAccessedAt session = 5.
Proof.
  intros r session.
  apply (X14_ensureSession_returns_the_registered_session
           (H := Demo.demoPlatform) [] Demo.emptyDisk
           (ResourceManager.init ResourceManager.defaultConfig)
           None None true Demo.launchOk Demo.launchOk 5 session r.2).
  vm_compute. reflexivity.
Defined.

Lemma X15_witness :
  let w := (createSession (H := Demo.demoPlatform)
              (Some "s1") None Demo.launchOk 0 Demo.freshProcess).2 in
  recoverSession (H := Demo.demoPlatform) "s1" Demo.recoveryOk 1 w = (None, w).
Proof.
  intros w.
  apply (X15_recoverSession_refuses_a_live_session (H := Demo.demoPlatform)
           "s1" Demo.recoveryOk 1 w (Demo.demoRecord "s1")).
  - discriminate.
  - vm_compute. eauto.
  - vm_compute. reflexivity.
Defined.

Lemma X16_witness :
  let rm := ResourceManager.init ResourceManager.defaultConfig in
  let w1 := (createSession (H := Demo.demoPlatform)
               (Some "s1") None Demo.launchOk 0 Demo.freshProcess).2 in
  let r := recoverSession (H := Demo.demoPlatform) "s1" Demo.recoveryOk 7
             (start (disk w1) rm) in
  SessionPersistence.loadSession (H := Demo.demoPlatform) persistenceDir "s1"
    (disk w1) = inr (Some (Demo.demoRecord "s1")) ∧
  r.1 = Some "s1" ∧
  sessions (sessionManager r.2) !! "s1" =
    Some (newSession "s1" (1%nat, 1%nat) "chromium" 7 (Some noSettings)).
Proof.
  intros rm w1 r.
  pose proof (X16_persisted_session_is_recovered_after_restart
                (H := Demo.demoPlatform)
                (Some "s1") None Demo.launchOk 0 Demo.freshProcess "s1" w1
                (newSession "s1" (1%nat, 1%nat) "chromium" 0 None) []
                Demo.recoveryOk 7 rm (1%nat, 1%nat)) as Hx.
  cbn zeta in Hx. apply Hx; clear Hx; try reflexivity;
    vm_compute; intros Hin; inversion Hin.
Defined.

End SessionManagerExtras.
